(** * Build-artifact cache of twitter.pants (base/build_cache.py)

    A shallow embedding of [BuildCache], [SourceScope] and [CacheKey] and of
    the parts of the Python 2 runtime they call ([hashlib.sha1], [os.path],
    [os], [shutil]), followed by the properties of the fingerprint and of the
    cache-entry life cycle.

    Python 2 [str] values (paths, file contents, digests) are byte strings and
    are modelled by [string]; machine words of SHA-1 are [Z] with the 32-bit
    wrap-around written out. *)

From Stdlib Require Import ZArith List String Ascii Bool Lia Arith Permutation.
Import ListNotations.
Local Open Scope string_scope.
Local Open Scope list_scope.

(* ===================================================================== *)
(** * Python [str] helpers *)
(* ===================================================================== *)

Module Str.

Definition slash : ascii := "/"%char.

(** [s.startswith(p)] *)
Fixpoint startswith (s p : string) : bool :=
  match p, s with
  | EmptyString, _ => true
  | String _ _, EmptyString => false
  | String b p', String a s' => Ascii.eqb a b && startswith s' p'
  end.

(** [s.endswith("/")] *)
Fixpoint ends_with_slash (s : string) : bool :=
  match s with
  | EmptyString => false
  | String c EmptyString => Ascii.eqb c slash
  | String _ s' => ends_with_slash s'
  end.

(** Python 2 [str.strip()] removes the bytes of [string.whitespace]:
    space, tab, newline, carriage return, vertical tab, form feed. *)
Definition is_space (c : ascii) : bool :=
  let n := nat_of_ascii c in
  Nat.eqb n 32 || (Nat.leb 9 n && Nat.leb n 13).

Fixpoint lstrip (s : string) : string :=
  match s with
  | String c s' => if is_space c then lstrip s' else s
  | EmptyString => EmptyString
  end.

Fixpoint rstrip (s : string) : string :=
  match s with
  | EmptyString => EmptyString
  | String c s' =>
      match rstrip s' with
      | EmptyString => if is_space c then EmptyString else String c EmptyString
      | r => String c r
      end
  end.

Definition strip (s : string) : string := lstrip (rstrip s).

(** [s.split("/")]: never empty, [""] splits to [[""]]. *)
Fixpoint split_slash (s : string) : list string :=
  match s with
  | EmptyString => [EmptyString]
  | String c s' =>
      if Ascii.eqb c slash then EmptyString :: split_slash s'
      else match split_slash s' with
           | h :: t => String c h :: t
           | [] => [String c EmptyString]
           end
  end.

(** ["/".join(l)] *)
Fixpoint join_slash (l : list string) : string :=
  match l with
  | [] => EmptyString
  | [c] => c
  | c :: l' => (c ++ String slash (join_slash l'))%string
  end.

Fixpoint has_slash (s : string) : bool :=
  match s with
  | EmptyString => false
  | String c s' => Ascii.eqb c slash || has_slash s'
  end.

End Str.

(* ===================================================================== *)
(** * [hashlib.sha1] (FIPS 180-4) *)
(* ===================================================================== *)

Module Sha1.
Local Open Scope Z_scope.

Definition mask32 : Z := 0xFFFFFFFF.
Definition w32 (x : Z) : Z := Z.land x mask32.
Definition add32 (x y : Z) : Z := w32 (x + y).
Definition not32 (x : Z) : Z := Z.lxor x mask32.
Definition rotl (n x : Z) : Z :=
  w32 (Z.lor (Z.shiftl x n) (Z.shiftr x (32 - n))).

Definition byte_of (c : ascii) : Z := Z.of_N (N_of_ascii c).

Fixpoint bytes_of (s : string) : list Z :=
  match s with
  | EmptyString => []
  | String c s' => byte_of c :: bytes_of s'
  end.

(** Big-endian bytes of [x], [n] of them. *)
Fixpoint be_bytes (n : nat) (x : Z) : list Z :=
  match n with
  | O => []
  | S n' => Z.land (Z.shiftr x (8 * Z.of_nat n')) 0xFF :: be_bytes n' x
  end.

(** Message padding: a 1 bit, zeros up to 56 mod 64, the bit length on
    64 bits. *)
Definition pad (msg : list Z) : list Z :=
  let len := Z.of_nat (List.length msg) in
  let zeros := Z.to_nat ((55 - len) mod 64) in
  (msg ++ [0x80] ++ repeat 0 zeros ++ be_bytes 8 (8 * len))%list.

Fixpoint words (fuel : nat) (bs : list Z) : list Z :=
  match fuel, bs with
  | S f, b0 :: b1 :: b2 :: b3 :: rest =>
      (Z.shiftl b0 24 + Z.shiftl b1 16 + Z.shiftl b2 8 + b3) :: words f rest
  | _, _ => []
  end.

(** The message schedule, most recent word first. *)
Fixpoint schedule (n : nat) (rw : list Z) : list Z :=
  match n with
  | O => rw
  | S n' =>
      let x := Z.lxor (Z.lxor (nth 2 rw 0) (nth 7 rw 0))
                      (Z.lxor (nth 13 rw 0) (nth 15 rw 0)) in
      schedule n' (rotl 1 x :: rw)
  end.

Definition state : Type := (Z * Z * Z * Z * Z)%type.

Definition init : state :=
  (0x67452301, 0xEFCDAB89, 0x98BADCFE, 0x10325476, 0xC3D2E1F0).

Definition f_k (t : nat) (b c d : Z) : Z * Z :=
  if Nat.ltb t 20 then
    (Z.lor (Z.land b c) (Z.land (not32 b) d), 0x5A827999)
  else if Nat.ltb t 40 then
    (Z.lxor (Z.lxor b c) d, 0x6ED9EBA1)
  else if Nat.ltb t 60 then
    (Z.lor (Z.lor (Z.land b c) (Z.land b d)) (Z.land c d), 0x8F1BBCDC)
  else
    (Z.lxor (Z.lxor b c) d, 0xCA62C1D6).

Fixpoint rounds (t : nat) (ws : list Z) (st : state) : state :=
  match ws with
  | [] => st
  | w :: ws' =>
      let '(a, b, c, d, e) := st in
      let '(f, k) := f_k t b c d in
      let tmp := add32 (add32 (add32 (add32 (rotl 5 a) f) e) k) w in
      rounds (S t) ws' (tmp, a, rotl 30 b, c, d)
  end.

Definition compress (st : state) (block : list Z) : state :=
  let '(h0, h1, h2, h3, h4) := st in
  let ws := rev (schedule 64 (rev (words 16 block))) in
  let '(a, b, c, d, e) := rounds 0 ws st in
  (add32 h0 a, add32 h1 b, add32 h2 c, add32 h3 d, add32 h4 e).

Fixpoint blocks (fuel : nat) (bs : list Z) (st : state) : state :=
  match fuel, bs with
  | S f, _ :: _ => blocks f (skipn 64 bs) (compress st (firstn 64 bs))
  | _, _ => st
  end.

Definition digest_words (msg : string) : state :=
  let p := pad (bytes_of msg) in
  blocks (List.length p) p init.

Definition hex_digit (x : Z) : ascii :=
  ascii_of_nat (Z.to_nat (if x <? 10 then 48 + x else 87 + x)).

Fixpoint hex_be (n : nat) (x : Z) : string :=
  match n with
  | O => EmptyString
  | S n' =>
      String (hex_digit (Z.land (Z.shiftr x (4 * Z.of_nat n')) 0xF))
             (hex_be n' x)
  end.

Definition hex_of_state (st : state) : string :=
  let '(h0, h1, h2, h3, h4) := st in
  (hex_be 8 h0 ++ hex_be 8 h1 ++ hex_be 8 h2 ++ hex_be 8 h3 ++ hex_be 8 h4)%string.

(** [hashlib.sha1(msg).hexdigest()] *)
Definition hexdigest_of (msg : string) : string :=
  hex_of_state (digest_words msg).

End Sha1.


(* ===================================================================== *)
(** * Exceptions and results *)
(* ===================================================================== *)

Inductive errno : Type :=
  | ENOENT | EEXIST | ENOTDIR | EISDIR | EINVAL.

Inductive exn : Type :=
  | ValueError
  | AssertionError
  | AttributeError
  | IOError (e : errno)
  | OSError (e : errno)
  | ShutilError.

Inductive result (A : Type) : Type :=
  | Ok (a : A)
  | Raise (e : exn).
Arguments Ok {A} a.
Arguments Raise {A} e.

Definition errno_eqb (a b : errno) : bool :=
  match a, b with
  | ENOENT, ENOENT | EEXIST, EEXIST | ENOTDIR, ENOTDIR
  | EISDIR, EISDIR | EINVAL, EINVAL => true
  | _, _ => false
  end.

(* ===================================================================== *)
(** * The file system

    A path, once resolved, is the list of its components below the root.
    The store is an association list from resolved paths to nodes; the
    order of the bindings is the order in which the operating system
    iterates over a directory. The root directory [[]] always exists. *)
(* ===================================================================== *)

Definition path : Type := list string.

Inductive fnode : Type :=
  | File (data : string)
  | Dir.

Definition FS : Type := list (path * fnode).

Record world : Type := World { getcwd : string; files : FS }.

Fixpoint path_eqb (p q : path) : bool :=
  match p, q with
  | [], [] => true
  | a :: p', b :: q' => String.eqb a b && path_eqb p' q'
  | _, _ => false
  end.

Fixpoint is_prefix (p q : path) : bool :=
  match p, q with
  | [], _ => true
  | a :: p', b :: q' => String.eqb a b && is_prefix p' q'
  | _ :: _, [] => false
  end.

Fixpoint strip_prefix (p q : path) : option path :=
  match p, q with
  | [], _ => Some q
  | a :: p', b :: q' => if String.eqb a b then strip_prefix p' q' else None
  | _ :: _, [] => None
  end.

Fixpoint fs_find (fs : FS) (p : path) : option fnode :=
  match fs with
  | [] => None
  | (q, n) :: rest => if path_eqb q p then Some n else fs_find rest p
  end.

Definition lookup (fs : FS) (p : path) : option fnode :=
  match p with
  | [] => Some Dir
  | _ => fs_find fs p
  end.

(** Replace the binding of [p], or add it after the existing ones. *)
Fixpoint fs_set (p : path) (n : fnode) (fs : FS) : FS :=
  match fs with
  | [] => [(p, n)]
  | (q, m) :: rest =>
      if path_eqb q p then (p, n) :: rest else (q, m) :: fs_set p n rest
  end.

Definition fs_remove (p : path) (fs : FS) : FS :=
  filter (fun b => negb (path_eqb (fst b) p)) fs.

Definition fs_remove_tree (p : path) (fs : FS) : FS :=
  filter (fun b => negb (is_prefix p (fst b))) fs.

(** The bindings strictly below [src], moved below [dst]. *)
Fixpoint fs_relocate (src dst : path) (fs : FS) : FS :=
  match fs with
  | [] => []
  | (q, n) :: rest =>
      match strip_prefix src q with
      | Some (c :: r) => (dst ++ c :: r, n) :: fs_relocate src dst rest
      | _ => fs_relocate src dst rest
      end
  end.

(** [p] has a strict prefix bound to a regular file. *)
Fixpoint file_above (fs : FS) (done : path) (todo : path) : bool :=
  match todo with
  | [] => false
  | c :: todo' =>
      match lookup fs done with
      | Some (File _) => true
      | _ => file_above fs (done ++ [c]) todo'
      end
  end.

Definition missing_errno (fs : FS) (p : path) : errno :=
  if file_above fs [] p then ENOTDIR else ENOENT.

(** Names of the entries of directory [p], in iteration order. *)
Fixpoint os_listdir (fs : FS) (p : path) : list string :=
  match fs with
  | [] => []
  | (q, _) :: rest =>
      match strip_prefix p q with
      | Some [name] => name :: os_listdir rest p
      | _ => os_listdir rest p
      end
  end.

(* ===================================================================== *)
(** * [os.path] (posixpath) *)
(* ===================================================================== *)

Definition isabs (s : string) : bool := Str.startswith s "/".

(** [os.path.join(a, b)] *)
Definition os_path_join (a b : string) : string :=
  if isabs b then b
  else if String.eqb a "" || Str.ends_with_slash a then (a ++ b)%string
  else (a ++ "/" ++ b)%string.

(** [os.path.basename(p)]: what follows the last slash. *)
Definition os_path_basename (p : string) : string :=
  last (Str.split_slash p) "".

(** [p[:p.rfind('/') + 1]] *)
Fixpoint upto_last_slash (p : string) : string :=
  match p with
  | EmptyString => EmptyString
  | String c p' =>
      if Str.has_slash p then String c (upto_last_slash p') else EmptyString
  end.

Fixpoint all_slashes (s : string) : bool :=
  match s with
  | EmptyString => true
  | String c s' => Ascii.eqb c Str.slash && all_slashes s'
  end.

(** [s.rstrip('/')] *)
Fixpoint rstrip_slashes (s : string) : string :=
  match s with
  | EmptyString => EmptyString
  | String c s' =>
      match rstrip_slashes s' with
      | EmptyString =>
          if Ascii.eqb c Str.slash then EmptyString else String c EmptyString
      | r => String c r
      end
  end.

(** [os.path.dirname(p)] *)
Definition os_path_dirname (p : string) : string :=
  let head := upto_last_slash p in
  if negb (String.eqb head "") && negb (all_slashes head)
  then rstrip_slashes head else head.

(** One step of [normpath] over the components of a path. *)
Definition norm_step (acc : path) (c : string) : path :=
  if String.eqb c "" || String.eqb c "." then acc
  else if String.eqb c ".." then removelast acc
  else acc ++ [c].

Definition normalize (comps : list string) : path :=
  fold_left norm_step comps [].

(** The components of [os.path.abspath(s)]; also how the system resolves
    [s] (lexically: there are no symbolic links). *)
Definition resolve (w : world) (s : string) : path :=
  normalize (Str.split_slash (os_path_join (getcwd w) s)).

Fixpoint common_prefix_len (p q : path) : nat :=
  match p, q with
  | a :: p', b :: q' =>
      if String.eqb a b then S (common_prefix_len p' q') else O
  | _, _ => O
  end.

(** [os.path.relpath(p, start)] for a non-empty [p]. *)
Definition relpath_str (w : world) (p start : string) : string :=
  let start_list := resolve w start in
  let path_list := resolve w p in
  let i := common_prefix_len start_list path_list in
  let rel_list :=
    repeat ".." (List.length start_list - i) ++ skipn i path_list in
  match rel_list with
  | [] => "."
  | _ => Str.join_slash rel_list
  end.

(** [os.path.relpath(p, start)]: an empty [p] is a [ValueError]. *)
Definition os_path_relpath (w : world) (p start : string) : result string :=
  if String.eqb p "" then Raise ValueError else Ok (relpath_str w p start).

Definition node_at (w : world) (s : string) : option fnode :=
  if String.eqb s "" then None else lookup (files w) (resolve w s).

Definition os_path_exists (w : world) (s : string) : bool :=
  match node_at w s with Some _ => true | None => false end.

Definition os_path_isdir (w : world) (s : string) : bool :=
  match node_at w s with Some Dir => true | _ => false end.

(* ===================================================================== *)
(** * Commands: state and exceptions

    A command runs in a world and returns a value or raises; the world it
    leaves behind is kept in both cases, since a raised exception does not
    undo what was already written. *)
(* ===================================================================== *)

Definition M (A : Type) : Type := world -> result A * world.

Definition ret {A : Type} (a : A) : M A := fun w => (Ok a, w).

Definition raise {A : Type} (e : exn) : M A := fun w => (Raise e, w).

Definition bind {A B : Type} (m : M A) (k : A -> M B) : M B :=
  fun w =>
    match m w with
    | (Ok a, w') => k a w'
    | (Raise e, w') => (Raise e, w')
    end.

(** Run a read-only computation. *)
Definition query {A : Type} (f : world -> A) : M A := fun w => (Ok (f w), w).

Definition try_query {A : Type} (f : world -> result A) : M A :=
  fun w => (f w, w).

Declare Scope cmd_scope.
Delimit Scope cmd_scope with cmd.
Notation "x <- m ;; k" := (bind m (fun x => k))
  (at level 61, m at next level, right associativity) : cmd_scope.
Notation "m ;; k" := (bind m (fun _ => k))
  (at level 61, right associativity) : cmd_scope.
Local Open Scope cmd_scope.

(** [for x in l: body(x)] *)
Fixpoint for_each {A : Type} (l : list A) (body : A -> M unit) : M unit :=
  match l with
  | [] => ret tt
  | x :: l' => body x ;; for_each l' body
  end.

Definition set_files (w : world) (fs : FS) : world := World (getcwd w) fs.

(* ===================================================================== *)
(** * Files: [open], [os], [shutil] *)
(* ===================================================================== *)

(** [open(s, 'rb').read()] *)
Definition open_read (w : world) (s : string) : result string :=
  if String.eqb s "" then Raise (IOError ENOENT)
  else
    let p := resolve w s in
    match lookup (files w) p with
    | Some (File data) => Ok data
    | Some Dir => Raise (IOError EISDIR)
    | None => Raise (IOError (missing_errno (files w) p))
    end.

(** [open(s, 'w').write(data)]: creates or truncates the file; its
    directory has to exist. *)
Definition open_write (s data : string) : M unit :=
  fun w =>
    if String.eqb s "" then (Raise (IOError ENOENT), w)
    else
      let p := resolve w s in
      match lookup (files w) p with
      | Some Dir => (Raise (IOError EISDIR), w)
      | Some (File _) => (Ok tt, set_files w (fs_set p (File data) (files w)))
      | None =>
          match lookup (files w) (removelast p) with
          | Some Dir => (Ok tt, set_files w (fs_set p (File data) (files w)))
          | _ => (Raise (IOError (missing_errno (files w) p)), w)
          end
      end.

(** [os.unlink(s)] *)
Definition os_unlink (s : string) : M unit :=
  fun w =>
    if String.eqb s "" then (Raise (OSError ENOENT), w)
    else
      let p := resolve w s in
      match lookup (files w) p with
      | Some (File _) => (Ok tt, set_files w (fs_remove p (files w)))
      | Some Dir => (Raise (OSError EISDIR), w)
      | None => (Raise (OSError (missing_errno (files w) p)), w)
      end.

(** Create the missing directories along [done ++ todo], outermost first. *)
Fixpoint mkdir_chain (fs : FS) (done todo : path) : result unit * FS :=
  match todo with
  | [] => (Ok tt, fs)
  | c :: todo' =>
      let p := done ++ [c] in
      match lookup fs p with
      | Some Dir => mkdir_chain fs p todo'
      | Some (File _) => (Raise (OSError ENOTDIR), fs)
      | None => mkdir_chain (fs_set p Dir fs) p todo'
      end
  end.

(** [os.makedirs(s)]: the leaf must not exist; missing intermediate
    directories are created. *)
Definition os_makedirs (s : string) : M unit :=
  fun w =>
    if String.eqb s "" then (Raise (OSError ENOENT), w)
    else
      let p := resolve w s in
      match lookup (files w) p with
      | Some _ => (Raise (OSError EEXIST), w)
      | None =>
          let '(r, fs) := mkdir_chain (files w) [] p in (r, set_files w fs)
      end.

(** [os.path.samefile] as [shutil._samefile] uses it: both exist and are
    the same node. *)
Definition samefile (w : world) (a b : string) : bool :=
  os_path_exists w a && os_path_exists w b
  && path_eqb (resolve w a) (resolve w b).

(** [shutil.copy(src, dst)] *)
Definition shutil_copy (src dst : string) : M unit :=
  isd <- query (fun w => os_path_isdir w dst) ;;
  let dst := if isd then os_path_join dst (os_path_basename src) else dst in
  same <- query (fun w => samefile w src dst) ;;
  if same then raise ShutilError
  else
    data <- try_query (fun w => open_read w src) ;;
    open_write dst data.

(** [shutil.copytree(src, dst)]: lists [src], creates [dst] (which must
    not exist) and copies everything below [src]. When [dst] lies inside
    [src] the copy would descend into itself; this ends in [shutil.Error],
    modelled here right after [dst] is created. *)
Definition shutil_copytree (src dst : string) : M unit :=
  src_node <- query (fun w => node_at w src) ;;
  match src_node with
  | Some Dir =>
      os_makedirs dst ;;
      fun w =>
        let ps := resolve w src in
        let pd := resolve w dst in
        if is_prefix ps pd then (Raise ShutilError, w)
        else (Ok tt, set_files w (files w ++ fs_relocate ps pd (files w)))
  | Some (File _) => raise (OSError ENOTDIR)
  | None => raise (OSError ENOENT)
  end.

(** Modelled from the spec: [twitter.common.dirutil.safe_rmtree], which is
    not among the sources. It deletes the directory and everything below
    it if the directory is there, tolerates errors, and never raises; on
    anything that is not a directory it has no effect. *)
Definition safe_rmtree (directory : string) : M unit :=
  fun w =>
    if os_path_isdir w directory
    then (Ok tt, set_files w (fs_remove_tree (resolve w directory) (files w)))
    else (Ok tt, w).

(** [os.walk(top)], top-down, without following links. The recursion is
    bounded by the number of bindings, which bounds the depth of the
    tree. *)
Fixpoint os_walk_fuel (fuel : nat) (w : world) (top : string)
  : list (string * list string * list string) :=
  match fuel with
  | O => []
  | S fuel' =>
      let names := os_listdir (files w) (resolve w top) in
      let isdir := fun name => os_path_isdir w (os_path_join top name) in
      let dirs := filter isdir names in
      let nondirs := filter (fun name => negb (isdir name)) names in
      (top, dirs, nondirs)
        :: flat_map (fun name => os_walk_fuel fuel' w (os_path_join top name))
                    dirs
  end.

Definition os_walk (w : world) (top : string)
  : list (string * list string * list string) :=
  os_walk_fuel (S (List.length (files w))) w top.

(* ===================================================================== *)
(** * [sorted] *)
(* ===================================================================== *)

Section Sorted.
Context {A : Type} (leb : A -> A -> bool).

Fixpoint insert_sorted (x : A) (l : list A) : list A :=
  match l with
  | [] => [x]
  | y :: l' => if leb x y then x :: l else y :: insert_sorted x l'
  end.

(** [sorted(l)]: a stable insertion sort. *)
Definition sorted (l : list A) : list A := fold_right insert_sorted [] l.
End Sorted.

(** Python orders lists and tuples lexicographically. *)
Fixpoint list_compare (l1 l2 : list string) : comparison :=
  match l1, l2 with
  | [], [] => Eq
  | [], _ :: _ => Lt
  | _ :: _, [] => Gt
  | a :: l1', b :: l2' =>
      match String.compare a b with
      | Eq => list_compare l1' l2'
      | c => c
      end
  end.

Definition walk_entry : Type := (string * list string * list string)%type.

Definition walk_entry_leb (a b : walk_entry) : bool :=
  let '(d1, s1, f1) := a in
  let '(d2, s2, f2) := b in
  match String.compare d1 d2 with
  | Lt => true
  | Gt => false
  | Eq =>
      match list_compare s1 s2 with
      | Lt => true
      | Gt => false
      | Eq => match list_compare f1 f2 with Gt => false | _ => true end
      end
  end.

(* ===================================================================== *)
(** * build_cache.py *)
(* ===================================================================== *)

(** [hashlib.sha1()] objects: the bytes fed so far. *)
Definition sha : Type := string.
Definition hashlib_sha1 : sha := "".
Definition sha_update (h : sha) (data : string) : sha := (h ++ data)%string.
Definition hexdigest (h : sha) : string := Sha1.hexdigest_of h.

(** [Compatibility.to_bytes]: the identity on a Python 2 [str]. *)
Definition to_bytes (s : string) : string := s.

(** [CacheKey = namedtuple('CacheKey', ['sources', 'hash', 'filename'])] *)
Record CacheKey : Type := mkCacheKey {
  sources : list string;
  hash : string;
  filename : string
}.

(** A build target, as far as this module looks at it: its [id] and,
    when it has the attribute, its [expand_files(recursive,
    include_buildfile)] method. *)
Record Target : Type := mkTarget {
  target_id : string;
  expand_files : option (bool -> bool -> list string)
}.

(** [class SourceScope]: [select] is abstract, [valid] may be overridden. *)
Record SourceScope : Type := mkSourceScope {
  select : Target -> result (list string);
  valid : Target -> bool
}.

(** [hasattr(target, 'expand_files')] *)
Definition has_expand_files (target : Target) : bool :=
  match expand_files target with Some _ => true | None => false end.

(** [SourceScope.for_selector(selector)] *)
Definition for_selector (selector : Target -> result (list string))
  : SourceScope :=
  {| select := selector; valid := has_expand_files |}.

(** [t.expand_files(recursive=r, include_buildfile=False)] *)
Definition call_expand_files (r : bool) (t : Target) : result (list string) :=
  match expand_files t with
  | Some f => Ok (f r false)
  | None => Raise AttributeError
  end.

Definition NO_SOURCES : SourceScope := for_selector (fun _ => Ok []).
Definition TARGET_SOURCES : SourceScope := for_selector (call_expand_files false).
Definition TRANSITIVE_SOURCES : SourceScope := for_selector (call_expand_files true).

Record BuildCache : Type := mkBuildCache { _root : string }.



(** [BuildCache._key_for(id, sha, sources)] *)
Definition _key_for (self : BuildCache) (id : string) (h : sha)
    (srcs : list string) : CacheKey :=
  let filename := os_path_join (_root self) id in
  mkCacheKey srcs (hexdigest h) filename.

(** [BuildCache._walk_paths(paths)]: the pairs
    [(relative_path, absolute_path)] in the order they are yielded. The
    path handed to [relpath] starts with [dir_name], which is not empty, so
    [relpath] does not raise. *)
Definition _walk_paths (w : world) (paths : list string)
  : list (string * string) :=
  flat_map
    (fun path =>
       if os_path_isdir w path then
         flat_map
           (fun entry : walk_entry =>
              let '(dir_name, _, filenames) := entry in
              map (fun filename =>
                     let filename := os_path_join dir_name filename in
                     (relpath_str w filename path, filename))
                  filenames)
           (sorted walk_entry_leb (os_walk w path))
       else [(os_path_basename path, path)])
    (sorted String.leb paths).

(** The loop of [_sources_hash] over the walked files. *)
Fixpoint hash_files (w : world) (h : sha) (l : list (string * string))
  : result sha :=
  match l with
  | [] => Ok h
  | (relative_filename, filename) :: l' =>
      match open_read w filename with
      | Raise e => Raise e
      | Ok data =>
          hash_files w
            (sha_update (sha_update h (to_bytes relative_filename)) data) l'
      end
  end.

(** [BuildCache._sources_hash(paths)] *)
Definition _sources_hash (w : world) (paths : list string) : result sha :=
  hash_files w hashlib_sha1 (_walk_paths w paths).

(** [BuildCache.key_for(id, sources)] *)
Definition key_for (self : BuildCache) (w : world) (id : string)
    (srcs : list string) : result CacheKey :=
  match _sources_hash w srcs with
  | Raise e => Raise e
  | Ok h => Ok (_key_for self id h srcs)
  end.

(** [BuildCache.key_for_target(target, sources, fingerprint_extra)].
    [sources] is [None] or a scope (a scope object is always true);
    [fingerprint_extra] is [None] or a function that feeds the hash. *)
Definition key_for_target (self : BuildCache) (w : world) (target : Target)
    (scope : option SourceScope) (fingerprint_extra : option (sha -> sha))
  : result CacheKey :=
  let no_scope :=
    match scope with None => true | Some s => negb (valid s target) end in
  let no_extra :=
    match fingerprint_extra with None => true | Some _ => false end in
  if no_scope && no_extra then Raise ValueError
  else
    let scope := match scope with None => NO_SOURCES | Some s => s end in
    match select scope target with
    | Raise e => Raise e
    | Ok selected =>
        let srcs := sorted String.leb selected in
        match _sources_hash w srcs with
        | Raise e => Raise e
        | Ok h =>
            let h := match fingerprint_extra with
                     | Some extra => extra h
                     | None => h
                     end in
            Ok (_key_for self (target_id target) h srcs)
        end
    end.

(** [BuildCache._sha_file(cache_key)] *)
Definition _sha_file (self : BuildCache) (cache_key : CacheKey) : string :=
  (os_path_join (_root self) (filename cache_key) ++ ".hash")%string.

(** [BuildCache._write_sha(cache_key)] *)
Definition _write_sha (self : BuildCache) (cache_key : CacheKey) : M unit :=
  open_write (_sha_file self cache_key) (hash cache_key).

(** [BuildCache._read_sha(cache_key)]: [None] when the file is not there. *)
Definition _read_sha (self : BuildCache) (w : world) (cache_key : CacheKey)
  : result (option string) :=
  match open_read w (_sha_file self cache_key) with
  | Ok data => Ok (Some (Str.strip data))
  | Raise (IOError e) =>
      if negb (errno_eqb e ENOENT) then Raise (IOError e) else Ok None
  | Raise e => Raise e
  end.

(** [BuildCache.needs_update(cache_key)] *)
Definition needs_update (self : BuildCache) (w : world) (cache_key : CacheKey)
  : result bool :=
  match _read_sha self w cache_key with
  | Raise e => Raise e
  | Ok cached_sha =>
      Ok (match cached_sha with
          | Some c => negb (String.eqb c (hash cache_key))
          | None => true
          end)
  end.

(** [BuildCache.invalidate(cache_key)] *)
Definition invalidate (self : BuildCache) (cache_key : CacheKey) : M unit :=
  safe_rmtree (filename cache_key) ;;
  let sha_file := _sha_file self cache_key in
  ex <- query (fun w => os_path_exists w sha_file) ;;
  if ex then os_unlink sha_file else ret tt.

(** The body of the loop of [update] for one artifact. *)
Definition stage_artifact (cache_key : CacheKey) (artifact_root : option string)
    (artifact : string) : M unit :=
  rel_path <- match artifact_root with
              | None => ret (os_path_basename artifact)
              | Some r => try_query (fun w => os_path_relpath w artifact r)
              end ;;
  if Str.startswith rel_path ".." then raise AssertionError
  else
    let artifact_dest := os_path_join (filename cache_key) rel_path in
    let dir_name := os_path_dirname artifact_dest in
    ex <- query (fun w => os_path_exists w dir_name) ;;
    (if negb ex then os_makedirs dir_name else ret tt) ;;
    isd <- query (fun w => os_path_isdir w artifact) ;;
    if isd then shutil_copytree artifact artifact_dest
    else shutil_copy artifact artifact_dest.

(** [BuildCache.update(cache_key, build_artifacts, artifact_root)] *)
Definition update (self : BuildCache) (cache_key : CacheKey)
    (build_artifacts : option (list string)) (artifact_root : option string)
  : M unit :=
  safe_rmtree (filename cache_key) ;;
  for_each (match build_artifacts with Some l => l | None => [] end)
           (stage_artifact cache_key artifact_root) ;;
  _write_sha self cache_key.


(** [BuildCache.use_cached_files(cache_key, copy_fn)] *)
Definition use_cached_files (cache_key : CacheKey)
    (copy_fn : string -> string -> M unit) : M unit :=
  fun w =>
    for_each (_walk_paths w [filename cache_key])
             (fun rf => copy_fn (snd rf) (fst rf)) w.

(* ===================================================================== *)
(** * Predicates used in the statements *)
(* ===================================================================== *)

(** A component that [normpath] keeps: not empty, not [.], not [..], and
    without a slash. *)
Definition plain_name (c : string) : bool :=
  negb (String.eqb c "") && negb (String.eqb c ".")
  && negb (String.eqb c "..") && negb (Str.has_slash c).



(** One of the two paths is a prefix of the other. *)
Definition comparable (p q : path) : bool := is_prefix p q || is_prefix q p.

(** The command [m] keeps the working directory and changes the store at
    most on the paths in [F]. *)
Definition modifies {A : Type} (F : world -> path -> Prop) (m : M A) : Prop :=
  forall w r w',
    m w = (r, w') ->
    getcwd w' = getcwd w /\
    forall q, ~ F w q -> lookup (files w') q = lookup (files w) q.

(** A footprint that depends on the world through its working directory
    only. *)
Definition stable (F : world -> path -> Prop) : Prop :=
  forall w w' q, getcwd w' = getcwd w -> F w' q -> F w q.




(** Two worlds with the same working directory and the same nodes at
    every path but [mk]. *)
Definition agree_except (mk : path) (w w' : world) : Prop :=
  getcwd w' = getcwd w /\
  forall q, q <> mk -> lookup (files w') q = lookup (files w) q.


(** The bytes that [_sources_hash] feeds to the digest for the walked
    files [l], in their order. *)
Fixpoint byte_stream (w : world) (l : list (string * string)) : string :=
  match l with
  | [] => ""
  | (relative_filename, filename) :: l' =>
      (relative_filename
       ++ match open_read w filename with Ok data => data | Raise _ => "" end
       ++ byte_stream w l')%string
  end.

(** The world after the file at [p] got the content [data]. *)
Definition rewrite_file (w : world) (p : path) (data : string) : world :=
  set_files w (fs_set p (File data) (files w)).







(** The selector is given and can be used with the target:
    [sources and sources.valid(target)]. *)
Definition applicable (scope : option SourceScope) (target : Target) : bool :=
  match scope with Some s => valid s target | None => false end.

(** A [fingerprint_extra] function is given. *)
Definition supplied (fingerprint_extra : option (sha -> sha)) : bool :=
  match fingerprint_extra with Some _ => true | None => false end.

(** The digest object after the optional [fingerprint_extra(sha)]. *)
Definition with_extra (fingerprint_extra : option (sha -> sha)) (h : sha) : sha :=
  match fingerprint_extra with Some extra => extra h | None => h end.


(* ===================================================================== *)
(** * Worlds used in the examples *)
(* ===================================================================== *)

Definition ex_cache : BuildCache := mkBuildCache "/cache/0".

(** A cache root, and one build output in the working directory. *)
Definition ex_world : world :=
  World "/home"
    [ (["cache"], Dir); (["cache"; "0"], Dir);
      (["home"], Dir); (["home"; "out.bin"], File "OUT") ].

Definition ex_key : CacheKey := _key_for ex_cache "libfoo" hashlib_sha1 [].

(** [ex_world] after [update(ex_key, ["out.bin"])]. *)
Definition ex_fresh : world :=
  snd (update ex_cache ex_key (Some ["out.bin"]) None ex_world).

(** One directory with two files, listed by the system in either order. *)
Definition listed_ab : world :=
  World "/" [ (["d"], Dir); (["d"; "a"], File "x"); (["d"; "b"], File "y") ].
Definition listed_ba : world :=
  World "/" [ (["d"], Dir); (["d"; "b"], File "y"); (["d"; "a"], File "x") ].

(** A file [ab] holding [c], and a file [a] holding [bc]. *)
Definition named_ab : world :=
  World "/" [ (["d"], Dir); (["d"; "ab"], File "c") ].
Definition named_a : world :=
  World "/" [ (["d"], Dir); (["d"; "a"], File "bc") ].

(** Two sources, before and after [/s/ab] is renamed to [/s/ba]. *)
Definition before_rename : world :=
  World "/" [ (["s"], Dir); (["s"; "ab"], File "a"); (["s"; "aba"], File "a") ].
Definition after_rename : world :=
  World "/" [ (["s"], Dir); (["s"; "ba"], File "a"); (["s"; "aba"], File "a") ].



(** A marker that holds the digest of [ex_key] followed by a newline. *)
Definition ex_padded : world :=
  World "/home"
    [ (["cache"], Dir); (["cache"; "0"], Dir);
      (["cache"; "0"; "libfoo.hash"],
       File (hash ex_key ++ String (ascii_of_nat 10) "")%string) ].


(** A marker path that is a directory. *)
Definition ex_marker_dir : world :=
  World "/home"
    [ (["cache"], Dir); (["cache"; "0"], Dir);
      (["cache"; "0"; "libfoo.hash"], Dir) ].

(** A target whose only source does not exist, and a target without
    [expand_files]. *)
Definition target_missing_source : Target :=
  mkTarget "libfoo" (Some (fun _ _ => ["/src/missing.txt"])).
Definition target_plain : Target := mkTarget "libfoo" None.

(** A cache and one source file [/src/f] with the given content. *)
Definition src_world (content : string) : world :=
  World "/home"
    [ (["cache"], Dir); (["cache"; "0"], Dir);
      (["src"], Dir); (["src"; "f"], File content) ].

(** A target whose only source is the file [/home/out.bin] of [ex_world]. *)
Definition target_out : Target :=
  mkTarget "libfoo" (Some (fun _ _ => ["/home/out.bin"])).

(* ===================================================================== *)
(** * build_cache.py: the remaining helper *)
(* ===================================================================== *)

(** [BuildCache._key(key)]: [key.replace(os.path.sep, '.')] *)
Fixpoint _key (key : string) : string :=
  match key with
  | EmptyString => EmptyString
  | String c key' =>
      String (if Ascii.eqb c Str.slash then "."%char else c) (_key key')
  end.

(* ===================================================================== *)
(** * contextutil: context managers

    A function decorated with [contextmanager] is used as
    [with f(args) as x: body]: the code before its [yield] runs, then the
    body with the yielded value, then the [finally] block, whether the
    body returned or raised. An exception raised before the [yield]
    reaches the caller and the body does not run; an exception raised in
    the [finally] block replaces the outcome of the body. *)
(* ===================================================================== *)

(** Commands over a state of type [S]; [M] is [Cmd world]. *)
Definition Cmd (S A : Type) : Type := S -> result A * S.

(** [try: body finally: final] *)
Definition try_finally {S A : Type} (body : Cmd S A) (final : Cmd S unit)
  : Cmd S A :=
  fun s =>
    let '(r, s1) := body s in
    match final s1 with
    | (Ok _, s2) => (r, s2)
    | (Raise e, s2) => (Raise e, s2)
    end.

(** The absolute path with the components [p], as [os.getcwd()] returns
    it. *)
Definition abs_path (p : path) : string := String Str.slash (Str.join_slash p).

(** [os.getcwd()] *)
Definition os_getcwd : M string := query getcwd.

(** [os.chdir(s)] *)
Definition os_chdir (s : string) : M unit :=
  fun w =>
    if String.eqb s "" then (Raise (OSError ENOENT), w)
    else
      let p := resolve w s in
      match lookup (files w) p with
      | Some Dir => (Ok tt, World (abs_path p) (files w))
      | Some (File _) => (Raise (OSError ENOTDIR), w)
      | None => (Raise (OSError (missing_errno (files w) p)), w)
      end.

(** [with pushd(directory) as d: body] *)
Definition pushd {A : Type} (directory : string) (body : string -> M A) : M A :=
  cwd <- os_getcwd ;;
  os_chdir directory ;;
  try_finally (body directory) (os_chdir cwd).

(** The working directory is an absolute path in the form
    [os.getcwd()] returns. *)
Definition canonical_cwd (w : world) : Prop :=
  getcwd w = abs_path (normalize (Str.split_slash (getcwd w))).

(** ** Commands over any state *)

Definition cret {S A : Type} (a : A) : Cmd S A := fun s => (Ok a, s).

Definition cbind {S A B : Type} (m : Cmd S A) (k : A -> Cmd S B) : Cmd S B :=
  fun s =>
    match m s with
    | (Ok a, s') => k a s'
    | (Raise e, s') => (Raise e, s')
    end.

(** [for x in l: body(x)] *)
Fixpoint cfor_each {S A : Type} (l : list A) (body : A -> Cmd S unit)
  : Cmd S unit :=
  match l with
  | [] => cret tt
  | x :: l' => cbind (body x) (fun _ => cfor_each l' body)
  end.

(** ** Dictionaries with string keys

    A [dict] is the list of its items, with distinct keys. The order in
    which [d.items()] returns them is not specified by the language: it is
    a parameter [items] of the code that iterates, of which only
    [Permutation (items d) d] is assumed. *)

Definition dict (V : Type) : Type := list (string * V).

(** [d.get(k)] *)
Fixpoint dict_get {V : Type} (d : dict V) (k : string) : option V :=
  match d with
  | [] => None
  | (k', v) :: d' => if String.eqb k' k then Some v else dict_get d' k
  end.

(** [d[k] = v] *)
Fixpoint dict_set {V : Type} (k : string) (v : V) (d : dict V) : dict V :=
  match d with
  | [] => [(k, v)]
  | (k', v') :: d' =>
      if String.eqb k' k then (k, v) :: d' else (k', v') :: dict_set k v d'
  end.

(** [d.pop(k, None)] *)
Definition dict_del {V : Type} (k : string) (d : dict V) : dict V :=
  filter (fun kv => negb (String.eqb (fst kv) k)) d.

Definition dict_keys {V : Type} (d : dict V) : list string := map fst d.

(** ** The environment

    [os.environ] is a mapping made when the [os] module is loaded; the
    environment of the process is what [getenv] and child processes see.
    Assigning to [os.environ] also calls [putenv], but [os.putenv] and
    [os.unsetenv] change the environment of the process only and leave
    [os.environ] as it is. *)

Record env : Type := Env {
  environ : dict string;
  process_env : dict string
}.

Fixpoint has_equals (s : string) : bool :=
  match s with
  | EmptyString => false
  | String c s' => Ascii.eqb c "="%char || has_equals s'
  end.

(** The name of an environment variable: not empty and without [=]. With
    another key the outcome of [putenv] and [unsetenv] depends on the C
    library and on the version of the interpreter; here both refuse it. *)
Definition env_name (k : string) : bool :=
  negb (String.eqb k "") && negb (has_equals k).

(** [os.putenv(key, val)] *)
Definition os_putenv (key val : string) : Cmd env unit :=
  fun s =>
    if env_name key
    then (Ok tt, Env (environ s) (dict_set key val (process_env s)))
    else (Raise (OSError EINVAL), s).

(** [os.unsetenv(key)] *)
Definition os_unsetenv (key : string) : Cmd env unit :=
  fun s =>
    if env_name key
    then (Ok tt, Env (environ s) (dict_del key (process_env s)))
    else (Raise (OSError EINVAL), s).

(** [os.environ.get(key)] *)
Definition environ_get (key : string) : Cmd env (option string) :=
  fun s => (Ok (dict_get (environ s) key), s).

(** What [getenv(key)] gives in the process and in the processes it
    starts. *)
Definition getenv (s : env) (key : string) : option string :=
  dict_get (process_env s) key.

(** The local function [setenv] of [environment_as]. *)
Definition setenv (key : string) (val : option string) : Cmd env unit :=
  match val with
  | Some v => os_putenv key v
  | None => os_unsetenv key
  end.

(** The first loop of [environment_as], over the items of
    [new_environment]; [old] is [old_environment] so far. *)
Fixpoint save_and_set (l : list (string * option string))
    (old : dict (option string)) : Cmd env (dict (option string)) :=
  match l with
  | [] => cret old
  | (key, val) :: l' =>
      cbind (environ_get key) (fun prev =>
      cbind (setenv key val) (fun _ =>
      save_and_set l' (dict_set key prev old)))
  end.

(** [with environment_as(k1=v1, ...): body] *)
Definition environment_as {A : Type}
    (items : dict (option string) -> list (string * option string))
    (kwargs : dict (option string)) (body : Cmd env A) : Cmd env A :=
  cbind (save_and_set (items kwargs) []) (fun old_environment =>
  try_finally body
    (cfor_each (items old_environment) (fun kv => setenv (fst kv) (snd kv)))).

(** ** The [sys] module

    An attribute of a module is bound to an object; two names, or a name
    and a saved value, can be bound to the same object, and a change made
    in place to the object is seen through each of them. The interpreter
    is the bindings of the attributes of [sys] to the places of objects
    and the objects at those places. *)

Record interp (Obj : Type) : Type := Interp {
  sys_attrs : dict nat;
  heap : list (nat * Obj)
}.
Arguments Interp {Obj} sys_attrs heap.
Arguments sys_attrs {Obj} i.
Arguments heap {Obj} i.

Fixpoint heap_get {Obj : Type} (h : list (nat * Obj)) (p : nat) : option Obj :=
  match h with
  | [] => None
  | (q, o) :: h' => if Nat.eqb q p then Some o else heap_get h' p
  end.

(** [hasattr(sys, key)] *)
Definition hasattr {Obj : Type} (s : interp Obj) (key : string) : bool :=
  match dict_get (sys_attrs s) key with Some _ => true | None => false end.

(** [setattr(sys, key, value)] *)
Definition setattr {Obj : Type} (key : string) (value : nat)
  : Cmd (interp Obj) unit :=
  fun s => (Ok tt, Interp (dict_set key value (sys_attrs s)) (heap s)).

(** [delattr(sys, key)] on an attribute that is there. *)
Definition delattr {Obj : Type} (key : string) : Cmd (interp Obj) unit :=
  fun s => (Ok tt, Interp (dict_del key (sys_attrs s)) (heap s)).

(** The object [sys.key] is bound to, if any. *)
Definition sys_value {Obj : Type} (s : interp Obj) (key : string)
  : option Obj :=
  match dict_get (sys_attrs s) key with
  | Some p => heap_get (heap s) p
  | None => None
  end.

Definition SAVED_ATTRIBUTES : list string :=
  [ "stdin"; "stdout"; "stderr";
    "argv"; "path"; "path_importer_cache"; "path_hooks";
    "modules"; "__egginsert" ].

(** [dict((key, getattr(sys, key)) for key in keys if hasattr(sys, key))] *)
Fixpoint sys_backup {Obj : Type} (s : interp Obj) (keys : list string)
    (d : dict nat) : dict nat :=
  match keys with
  | [] => d
  | key :: keys' =>
      match dict_get (sys_attrs s) key with
      | Some p => sys_backup s keys' (dict_set key p d)
      | None => sys_backup s keys' d
      end
  end.

(** [with mutable_sys(): body]. The loop over [_sys_backup] reads
    [_sys_backup[attribute]] for the keys of that dict: it is the loop
    over its items. [items] and [elements] are the orders in which the
    dict and the set are iterated. *)
Definition mutable_sys {Obj A : Type}
    (items : dict nat -> list (string * nat))
    (elements : list string -> list string)
    (body : Cmd (interp Obj) A) : Cmd (interp Obj) A :=
  fun s =>
    let _sys_backup := sys_backup s SAVED_ATTRIBUTES [] in
    let _sys_delete :=
      filter (fun key => negb (hasattr s key)) SAVED_ATTRIBUTES in
    try_finally body
      (cbind
         (cfor_each (items _sys_backup)
            (fun kv => setattr (fst kv) (snd kv)))
         (fun _ =>
            cfor_each (elements _sys_delete)
              (fun attribute x =>
                 if hasattr x attribute then delattr attribute x
                 else (Ok tt, x))))
      s.

(** ** Temporary directories *)

(** [os.mkdir(s)] *)
Definition os_mkdir (s : string) : M unit :=
  fun w =>
    if String.eqb s "" then (Raise (OSError ENOENT), w)
    else
      let p := resolve w s in
      match lookup (files w) p with
      | Some _ => (Raise (OSError EEXIST), w)
      | None =>
          match lookup (files w) (removelast p) with
          | Some Dir => (Ok tt, set_files w (fs_set p Dir (files w)))
          | _ => (Raise (OSError (missing_errno (files w) p)), w)
          end
      end.

(** The loop of [tempfile.mkdtemp] over the candidate names: the first
    name that [os.mkdir] accepts is taken, a name that exists is passed
    over, any other error is raised, and [IOError] with [EEXIST] is raised
    when the names are used up. *)
Fixpoint mkdtemp_from (dir : string) (names : list string) : M string :=
  match names with
  | [] => raise (IOError EEXIST)
  | name :: names' =>
      fun w =>
        let file := os_path_join dir ("tmp" ++ name) in
        match os_mkdir file w with
        | (Ok _, w') => (Ok file, w')
        | (Raise (OSError EEXIST), w') => mkdtemp_from dir names' w'
        | (Raise e, w') => (Raise e, w')
        end
  end.

(** [tempfile.mkdtemp(dir=dir)]. [tempdir] is [tempfile.gettempdir()] and
    [names] the [TMP_MAX] names the random name sequence gives to this
    call. *)
Definition mkdtemp (tempdir : string) (names : list string)
    (dir : option string) : M string :=
  mkdtemp_from (match dir with Some d => d | None => tempdir end) names.

(** [shutil.rmtree(path, ignore_errors=True)]: a directory is removed with
    all it holds; on anything else the errors of [os.listdir] and
    [os.rmdir] are ignored and nothing is removed. *)
Definition shutil_rmtree_ignore_errors (path : string) : M unit :=
  fun w =>
    if os_path_isdir w path
    then (Ok tt, set_files w (fs_remove_tree (resolve w path) (files w)))
    else (Ok tt, w).

(** [with temporary_dir(root_dir, cleanup) as path: body] *)
Definition temporary_dir {A : Type} (tempdir : string) (names : list string)
    (root_dir : option string) (cleanup : bool) (body : string -> M A)
  : M A :=
  path <- mkdtemp tempdir names root_dir ;;
  try_finally (body path)
    (if cleanup then shutil_rmtree_ignore_errors path else ret tt).



(** Closed goals are settled by evaluation. *)
Ltac by_evaluation := vm_compute; reflexivity.

(* ===================================================================== *)
(** * SHA-1 on the test vectors *)
(* ===================================================================== *)

Example sha1_abc :
  Sha1.hexdigest_of "abc" = "a9993e364706816aba3e25717850c26c9cd0d89d".
Proof. vm_compute. reflexivity. Qed.

Example sha1_empty :
  Sha1.hexdigest_of "" = "da39a3ee5e6b4b0d3255bfef95601890afd80709".
Proof. vm_compute. reflexivity. Qed.

Example sha1_two_blocks :
  Sha1.hexdigest_of
    "abcdbcdecdefdefgefghfghighijhijkijkljklmklmnlmnomnopnopq"
  = "84983e441c3bd26ebaae4aa1f95129e5e54670f1".
Proof. vm_compute. reflexivity. Qed.

(* ===================================================================== *)
(** * Paths and stores: basic facts *)
(* ===================================================================== *)

Lemma path_eqb_refl (p : path) : path_eqb p p = true.
Proof. induction p; simpl; [reflexivity|]. now rewrite String.eqb_refl. Qed.

Lemma path_eqb_eq (p q : path) : path_eqb p q = true <-> p = q.
Proof.
  split; [|intros ->; apply path_eqb_refl].
  revert q; induction p as [|a p IH]; intros [|b q]; simpl; try discriminate; auto.
  intros H. apply andb_true_iff in H as [H1 H2].
  apply String.eqb_eq in H1. apply IH in H2. now subst.
Qed.

Lemma path_eqb_neq (p q : path) : path_eqb p q = false <-> p <> q.
Proof.
  split.
  - intros H E. apply path_eqb_eq in E. congruence.
  - intros H. destruct (path_eqb p q) eqn:E; [|reflexivity].
    apply path_eqb_eq in E. contradiction.
Qed.

Lemma path_eqb_sym (p q : path) : path_eqb p q = path_eqb q p.
Proof.
  destruct (path_eqb p q) eqn:E.
  - apply path_eqb_eq in E. subst. symmetry. apply path_eqb_refl.
  - symmetry. apply path_eqb_neq. apply path_eqb_neq in E. congruence.
Qed.

Lemma is_prefix_iff (p q : path) :
  is_prefix p q = true <-> exists r, q = p ++ r.
Proof.
  revert q; induction p as [|a p IH]; intros q; simpl.
  - split; [intros _; now exists q | reflexivity].
  - destruct q as [|b q].
    + split; [discriminate | intros [r H]; discriminate].
    + rewrite andb_true_iff, String.eqb_eq, IH. split.
      * intros [-> [r ->]]. now exists r.
      * intros [r H]. injection H as -> ->. split; [reflexivity | now exists r].
Qed.

Lemma is_prefix_app (p r : path) : is_prefix p (p ++ r) = true.
Proof. apply is_prefix_iff. now exists r. Qed.

Lemma is_prefix_refl (p : path) : is_prefix p p = true.
Proof. apply is_prefix_iff. exists []. now rewrite app_nil_r. Qed.

Lemma is_prefix_trans (p q r : path) :
  is_prefix p q = true -> is_prefix q r = true -> is_prefix p r = true.
Proof.
  rewrite !is_prefix_iff. intros [a ->] [b ->]. exists (a ++ b).
  now rewrite app_assoc.
Qed.





Lemma fs_find_set (p q : path) (n : fnode) (fs : FS) :
  fs_find (fs_set p n fs) q = if path_eqb p q then Some n else fs_find fs q.
Proof.
  induction fs as [|[k m] fs IH]; simpl.
  - reflexivity.
  - destruct (path_eqb k p) eqn:E; simpl.
    + apply path_eqb_eq in E. subst k. now destruct (path_eqb p q).
    + destruct (path_eqb k q) eqn:F.
      * apply path_eqb_eq in F. subst k. now rewrite path_eqb_sym, E.
      * exact IH.
Qed.

Lemma fs_find_remove (p q : path) (fs : FS) :
  fs_find (fs_remove p fs) q = if path_eqb p q then None else fs_find fs q.
Proof.
  unfold fs_remove. induction fs as [|[k m] fs IH]; simpl.
  - now destruct (path_eqb p q).
  - destruct (path_eqb k p) eqn:E; simpl.
    + apply path_eqb_eq in E. subst k. rewrite IH. now destruct (path_eqb p q).
    + rewrite IH. destruct (path_eqb k q) eqn:F; [|reflexivity].
      apply path_eqb_eq in F. subst k. now rewrite path_eqb_sym, E.
Qed.

Lemma fs_find_remove_tree (p q : path) (fs : FS) :
  fs_find (fs_remove_tree p fs) q
  = if is_prefix p q then None else fs_find fs q.
Proof.
  unfold fs_remove_tree. induction fs as [|[k m] fs IH]; simpl.
  - now destruct (is_prefix p q).
  - destruct (is_prefix p k) eqn:E; simpl.
    + rewrite IH. destruct (is_prefix p q) eqn:F; [reflexivity|].
      destruct (path_eqb k q) eqn:G; [|reflexivity].
      apply path_eqb_eq in G. congruence.
    + rewrite IH. destruct (path_eqb k q) eqn:G; [|reflexivity].
      apply path_eqb_eq in G. subst k. now rewrite E.
Qed.




Lemma lookup_nonroot (fs : FS) (p : path) :
  p <> [] -> lookup fs p = fs_find fs p.
Proof. now destruct p. Qed.

(* ===================================================================== *)
(** * Path strings: splitting, joining, resolving *)
(* ===================================================================== *)

Lemma append_nil_r (s : string) : (s ++ "")%string = s.
Proof. induction s; simpl; congruence. Qed.

Lemma append_assoc (a b c : string) :
  ((a ++ b) ++ c)%string = (a ++ (b ++ c))%string.
Proof. induction a; simpl; congruence. Qed.

Lemma append_length (a b : string) :
  String.length (a ++ b) = String.length a + String.length b.
Proof. induction a; simpl; congruence. Qed.

Lemma append_inv_head (a b c : string) :
  (a ++ b)%string = (a ++ c)%string -> b = c.
Proof. induction a; simpl; intros H; [assumption|]. injection H. auto. Qed.

Lemma append_same_length (a b c d : string) :
  String.length a = String.length c ->
  (a ++ b)%string = (c ++ d)%string -> a = c /\ b = d.
Proof.
  revert c; induction a as [|x a IH]; intros [|y c]; simpl; try discriminate.
  - auto.
  - intros [= L] [= -> H]. destruct (IH c L H). now subst.
Qed.


Lemma split_slash_cons (s : string) :
  exists h t, Str.split_slash s = h :: t.
Proof.
  induction s as [|c s [h [t IH]]]; simpl; [now eexists; eexists|].
  destruct (Ascii.eqb c Str.slash); [now eexists; eexists|].
  rewrite IH. now eexists; eexists.
Qed.

Lemma split_slash_app (a y : string) :
  Str.split_slash (a ++ String Str.slash y)
  = Str.split_slash a ++ Str.split_slash y.
Proof.
  induction a as [|c a IH]; simpl.
  - reflexivity.
  - destruct (Ascii.eqb c Str.slash); [now rewrite IH|].
    rewrite IH. destruct (split_slash_cons a) as [h [t ->]]. reflexivity.
Qed.

Lemma ends_with_slash_inv (a : string) :
  Str.ends_with_slash a = true -> exists a0, a = (a0 ++ "/")%string.
Proof.
  induction a as [|c a IH]; simpl; [discriminate|].
  destruct a as [|d a].
  - intros H. apply Ascii.eqb_eq in H. subst c. now exists "".
  - intros H. destruct (IH H) as [a0 E]. exists (String c a0). simpl. now rewrite <- E.
Qed.

Lemma split_slash_no_slash (s : string) :
  Str.has_slash s = false -> Str.split_slash s = [s].
Proof.
  induction s as [|c s IH]; simpl; [reflexivity|].
  destruct (Ascii.eqb c Str.slash); simpl; [discriminate|].
  intros H. now rewrite (IH H).
Qed.

Lemma split_slash_slash_free (s : string) :
  Forall (fun c => Str.has_slash c = false) (Str.split_slash s).
Proof.
  induction s as [|c s IH]; simpl; [now repeat constructor|].
  destruct (Ascii.eqb c Str.slash) eqn:E; [now constructor|].
  destruct (Str.split_slash s) as [|h t]; [repeat constructor; simpl; now rewrite E|].
  inversion IH; subst. constructor; [simpl; now rewrite E | assumption].
Qed.

Lemma isabs_no_slash (s : string) : Str.has_slash s = false -> isabs s = false.
Proof.
  destruct s as [|c s]; [reflexivity|]. unfold isabs. simpl.
  fold Str.slash. destruct (Ascii.eqb c Str.slash); [discriminate | reflexivity].
Qed.

Lemma startswith_empty (s : string) : Str.startswith s "" = true.
Proof. now destruct s. Qed.

Lemma isabs_app (a b : string) : a <> "" -> isabs (a ++ b) = isabs a.
Proof.
  destruct a; [congruence|]. intros _. unfold isabs. simpl.
  now rewrite !startswith_empty.
Qed.

Lemma norm_step_empty (acc : path) : norm_step acc "" = acc.
Proof. reflexivity. Qed.

Lemma fold_norm_join (a y : string) (acc : path) :
  isabs y = false ->
  fold_left norm_step (Str.split_slash (os_path_join a y)) acc
  = fold_left norm_step (Str.split_slash y)
      (fold_left norm_step (Str.split_slash a) acc).
Proof.
  intros Hy. unfold os_path_join. rewrite Hy.
  destruct (String.eqb a "") eqn:E; simpl.
  - apply String.eqb_eq in E. subst a. reflexivity.
  - destruct (Str.ends_with_slash a) eqn:F.
    + destruct (ends_with_slash_inv a F) as [a0 ->].
      rewrite append_assoc. change ("/" ++ y)%string with (String Str.slash y).
      change (a0 ++ "/")%string with (a0 ++ String Str.slash "")%string.
      rewrite !split_slash_app, !fold_left_app. reflexivity.
    + change ("/" ++ y)%string with (String Str.slash y).
      now rewrite split_slash_app, fold_left_app.
Qed.

Lemma isabs_join (a y : string) :
  isabs y = false ->
  isabs (os_path_join a y) = isabs a.
Proof.
  intros Hy. unfold os_path_join. rewrite Hy.
  destruct a as [|c a]; [simpl; exact Hy|].
  change (String.eqb (String c a) "" || Str.ends_with_slash (String c a))
    with (Str.ends_with_slash (String c a)).
  destruct (Str.ends_with_slash (String c a)); apply isabs_app; discriminate.
Qed.

Lemma join_abs (a y : string) : isabs y = true -> os_path_join a y = y.
Proof. intros H. unfold os_path_join. now rewrite H. Qed.

Lemma resolve_abs (w : world) (s : string) :
  isabs s = true -> resolve w s = normalize (Str.split_slash s).
Proof. intros H. unfold resolve. now rewrite join_abs. Qed.

Lemma resolve_rel (w : world) (s : string) :
  isabs s = false ->
  resolve w s = fold_left norm_step (Str.split_slash s) (resolve w "").
Proof.
  intros H. unfold resolve, normalize. rewrite (fold_norm_join _ s [] H).
  rewrite (fold_norm_join _ "" [] eq_refl). reflexivity.
Qed.

(** Joining a relative path continues the resolution where the first
    path ended. *)
Lemma resolve_join (w : world) (d x : string) :
  isabs x = false ->
  resolve w (os_path_join d x)
  = fold_left norm_step (Str.split_slash x) (resolve w d).
Proof.
  intros Hx. destruct (isabs d) eqn:Hd.
  - rewrite !resolve_abs; [| assumption | now rewrite isabs_join].
    unfold normalize. now apply fold_norm_join.
  - rewrite (resolve_rel w (os_path_join d x)) by now rewrite isabs_join.
    rewrite (resolve_rel w d Hd). now apply fold_norm_join.
Qed.

Lemma resolve_same_cwd (w w' : world) (s : string) :
  getcwd w' = getcwd w -> resolve w' s = resolve w s.
Proof. intros H. unfold resolve. now rewrite H. Qed.

Lemma norm_step_plain (acc : path) (c : string) :
  plain_name c = true -> norm_step acc c = acc ++ [c].
Proof.
  unfold plain_name, norm_step. intros H.
  apply andb_true_iff in H as [H _]. apply andb_true_iff in H as [H H3].
  apply andb_true_iff in H as [H1 H2].
  apply negb_true_iff in H1, H2, H3. now rewrite H1, H2, H3.
Qed.


Lemma norm_step_result (acc : path) (c : string) :
  norm_step acc c = acc \/ norm_step acc c = removelast acc
  \/ (norm_step acc c = acc ++ [c] /\ c <> "" /\ c <> "." /\ c <> "..").
Proof.
  unfold norm_step.
  destruct (String.eqb c "") eqn:E1; [now left|].
  destruct (String.eqb c ".") eqn:E2; [now left|]. simpl.
  destruct (String.eqb c "..") eqn:E3; [now right; left|].
  right; right. apply String.eqb_neq in E1, E2, E3. auto.
Qed.

Lemma Forall_removelast {A} (P : A -> Prop) (l : list A) :
  Forall P l -> Forall P (removelast l).
Proof.
  induction 1 as [|x l Hx Hl IH]; simpl; [constructor|].
  destruct l; [constructor | now constructor].
Qed.

Lemma fold_norm_plain (l : list string) (acc : path) :
  Forall (fun c => Str.has_slash c = false) l ->
  Forall (fun c => plain_name c = true) acc ->
  Forall (fun c => plain_name c = true) (fold_left norm_step l acc).
Proof.
  revert acc; induction l as [|c l IH]; intros acc Hl Hacc; simpl; [assumption|].
  inversion Hl as [|? ? Hc Hl']; subst. apply IH; [assumption|].
  destruct (norm_step_result acc c) as [-> | [-> | [-> [E1 [E2 E3]]]]].
  - assumption.
  - now apply Forall_removelast.
  - apply Forall_app. split; [assumption|]. constructor; [|constructor].
    unfold plain_name. apply String.eqb_neq in E1, E2, E3.
    now rewrite E1, E2, E3, Hc.
Qed.

(** Every component of a resolved path is a plain name. *)
Lemma resolve_plain (w : world) (s : string) :
  Forall (fun c => plain_name c = true) (resolve w s).
Proof.
  unfold resolve, normalize. apply fold_norm_plain; [|constructor].
  apply split_slash_slash_free.
Qed.

(* ===================================================================== *)
(** * [dirname], [basename], [relpath] *)
(* ===================================================================== *)














Lemma split_join_slash (l : list string) :
  l <> [] -> Forall (fun c => Str.has_slash c = false) l ->
  Str.split_slash (Str.join_slash l) = l.
Proof.
  induction l as [|c l IH]; [congruence|]. intros _ H.
  inversion H as [|? ? Hc Hl]; subst.
  destruct l as [|c' l].
  - simpl. now apply split_slash_no_slash.
  - change (Str.join_slash (c :: c' :: l))
      with (c ++ String Str.slash (Str.join_slash (c' :: l)))%string.
    rewrite split_slash_app, (split_slash_no_slash c Hc), IH; [reflexivity | discriminate | assumption].
Qed.

Lemma plain_name_facts (c : string) :
  plain_name c = true ->
  c <> "" /\ c <> "." /\ c <> ".." /\ Str.has_slash c = false.
Proof.
  unfold plain_name. intros H.
  apply andb_true_iff in H as [H H4]. apply andb_true_iff in H as [H H3].
  apply andb_true_iff in H as [H1 H2].
  apply negb_true_iff in H1, H2, H3, H4.
  apply String.eqb_neq in H1, H2, H3. auto.
Qed.







(* ===================================================================== *)
(** * What the commands may change *)
(* ===================================================================== *)

Lemma lookup_set_other (p q : path) (n : fnode) (fs : FS) :
  q <> p -> lookup (fs_set p n fs) q = lookup fs q.
Proof.
  intros H. destruct q as [|c q]; [reflexivity|]. simpl.
  rewrite fs_find_set. destruct (path_eqb p (c :: q)) eqn:E; [|reflexivity].
  apply path_eqb_eq in E. congruence.
Qed.

Lemma lookup_set_same (p : path) (n : fnode) (fs : FS) :
  p <> [] -> lookup (fs_set p n fs) p = Some n.
Proof.
  intros H. rewrite lookup_nonroot by assumption.
  now rewrite fs_find_set, path_eqb_refl.
Qed.

Lemma lookup_remove_other (p q : path) (fs : FS) :
  q <> p -> lookup (fs_remove p fs) q = lookup fs q.
Proof.
  intros H. destruct q as [|c q]; [reflexivity|]. simpl.
  rewrite fs_find_remove. destruct (path_eqb p (c :: q)) eqn:E; [|reflexivity].
  apply path_eqb_eq in E. congruence.
Qed.

Lemma lookup_remove_tree_other (p q : path) (fs : FS) :
  is_prefix p q = false -> lookup (fs_remove_tree p fs) q = lookup fs q.
Proof.
  intros H. destruct q as [|c q]; [reflexivity|]. simpl.
  now rewrite fs_find_remove_tree, H.
Qed.



Lemma modifies_ret {A} F (a : A) : modifies F (ret a).
Proof. intros w r w' [= _ <-]. auto. Qed.


Lemma modifies_query {A} F (f : world -> A) : modifies F (query f).
Proof. intros w r w' [= _ <-]. auto. Qed.


Lemma modifies_bind {A B} F (m : M A) (k : A -> M B) :
  stable F -> modifies F m -> (forall a, modifies F (k a)) ->
  modifies F (bind m k).
Proof.
  intros HF Hm Hk w r w' H. unfold bind in H.
  destruct (m w) as [[a|e] w1] eqn:E.
  - destruct (Hm _ _ _ E) as [C1 L1]. destruct (Hk a _ _ _ H) as [C2 L2].
    split; [congruence|]. intros q Hq. rewrite L2, L1; auto.
    intros X. apply Hq. eapply HF; eassumption.
  - injection H as <- <-. exact (Hm _ _ _ E).
Qed.

Lemma modifies_weaken {A} (F G : world -> path -> Prop) (m : M A) :
  (forall w q, F w q -> G w q) -> modifies F m -> modifies G m.
Proof.
  intros HFG Hm w r w' H. destruct (Hm _ _ _ H) as [C L]. split; auto.
Qed.


Lemma modifies_if {A} F (b : bool) (m1 m2 : M A) :
  modifies F m1 -> modifies F m2 -> modifies F (if b then m1 else m2).
Proof. now destruct b. Qed.


Lemma modifies_os_unlink (s : string) :
  modifies (fun w q => q = resolve w s) (os_unlink s).
Proof.
  intros w r w' H. unfold os_unlink in H.
  destruct (String.eqb s ""); [injection H as _ <-; auto|].
  destruct (lookup (files w) (resolve w s)) as [[d|]|];
    injection H as _ <-; auto.
  split; [reflexivity|]. intros q Hq. simpl. now apply lookup_remove_other.
Qed.

Lemma modifies_safe_rmtree (s : string) :
  modifies (fun w q => is_prefix (resolve w s) q = true) (safe_rmtree s).
Proof.
  intros w r w' H. unfold safe_rmtree in H.
  destruct (os_path_isdir w s); injection H as _ <-; auto.
  split; [reflexivity|]. intros q Hq. simpl.
  apply lookup_remove_tree_other. now destruct (is_prefix (resolve w s) q).
Qed.


Lemma stable_resolve_eq (s : string) : stable (fun w q => q = resolve w s).
Proof. intros w w' q C ->. now apply resolve_same_cwd. Qed.







Lemma comparable_under (E r : path) : comparable E (E ++ r) = true.
Proof. unfold comparable. now rewrite is_prefix_app. Qed.








(* ===================================================================== *)
(** * The layout of an entry *)
(* ===================================================================== *)

Lemma has_slash_app (a b : string) :
  Str.has_slash (a ++ b) = Str.has_slash a || Str.has_slash b.
Proof.
  induction a as [|c a IH]; simpl; [reflexivity|].
  rewrite IH. now rewrite orb_assoc.
Qed.

Lemma plain_name_isabs (id : string) : plain_name id = true -> isabs id = false.
Proof. intros H. apply isabs_no_slash. now apply plain_name_facts in H. Qed.

Lemma plain_name_hash (id : string) :
  plain_name id = true -> plain_name (id ++ ".hash") = true.
Proof.
  intros H. apply plain_name_facts in H as (H1 & _ & _ & H4).
  assert (L : 5 <= String.length (id ++ ".hash"))
    by (rewrite append_length; simpl; lia).
  unfold plain_name. rewrite has_slash_app, H4. simpl.
  destruct (String.eqb_spec (id ++ ".hash") "") as [E|_];
    [rewrite E in L; simpl in L; lia|].
  destruct (String.eqb_spec (id ++ ".hash") ".") as [E|_];
    [rewrite E in L; simpl in L; lia|].
  destruct (String.eqb_spec (id ++ ".hash") "..") as [E|_];
    [rewrite E in L; simpl in L; lia|].
  reflexivity.
Qed.

Lemma resolve_join_plain (w : world) (root id : string) :
  plain_name id = true ->
  resolve w (os_path_join root id) = resolve w root ++ [id].
Proof.
  intros H. rewrite resolve_join by now apply plain_name_isabs.
  rewrite split_slash_no_slash by now apply plain_name_facts in H.
  simpl. now apply norm_step_plain.
Qed.

Lemma join_append (root id ext : string) :
  id <> "" -> isabs id = false ->
  (os_path_join root id ++ ext)%string = os_path_join root (id ++ ext).
Proof.
  intros Hne Ha. unfold os_path_join.
  rewrite isabs_app by assumption. rewrite Ha.
  destruct (String.eqb root "" || Str.ends_with_slash root).
  - apply append_assoc.
  - rewrite append_assoc. f_equal.
Qed.

(** With an absolute root and a plain id, the marker is the sibling
    [<id>.hash] of the entry directory. *)
Lemma sha_file_plain (self : BuildCache) (k : CacheKey) (id : string) :
  isabs (_root self) = true -> plain_name id = true ->
  filename k = os_path_join (_root self) id ->
  _sha_file self k = os_path_join (_root self) (id ++ ".hash").
Proof.
  intros Hr Hid Hk. unfold _sha_file. rewrite Hk.
  rewrite join_abs by (rewrite isabs_join; [assumption | now apply plain_name_isabs]).
  apply join_append; [now apply plain_name_facts in Hid | now apply plain_name_isabs].
Qed.

Lemma filename_abs (self : BuildCache) (k : CacheKey) (id : string) :
  isabs (_root self) = true -> plain_name id = true ->
  filename k = os_path_join (_root self) id ->
  isabs (filename k) = true.
Proof.
  intros Hr Hid ->. rewrite isabs_join; [assumption | now apply plain_name_isabs].
Qed.

Lemma resolve_entry (self : BuildCache) (k : CacheKey) (id : string) (w : world) :
  plain_name id = true ->
  filename k = os_path_join (_root self) id ->
  resolve w (filename k) = resolve w (_root self) ++ [id].
Proof. intros Hid ->. now apply resolve_join_plain. Qed.

Lemma resolve_marker (self : BuildCache) (k : CacheKey) (id : string) (w : world) :
  isabs (_root self) = true -> plain_name id = true ->
  filename k = os_path_join (_root self) id ->
  resolve w (_sha_file self k) = resolve w (_root self) ++ [id ++ ".hash"]%string.
Proof.
  intros Hr Hid Hk. rewrite (sha_file_plain self k id Hr Hid Hk).
  apply resolve_join_plain. now apply plain_name_hash.
Qed.

Lemma sha_file_nonempty (self : BuildCache) (k : CacheKey) :
  _sha_file self k <> "".
Proof.
  unfold _sha_file. intros H. apply (f_equal String.length) in H.
  rewrite append_length in H. simpl in H. lia.
Qed.

Lemma comparable_siblings (R p : path) (a b : string) :
  a <> b -> comparable (R ++ [a]) (R ++ b :: p) = false.
Proof.
  intros H. unfold comparable. apply orb_false_iff. split.
  - destruct (is_prefix (R ++ [a]) (R ++ b :: p)) eqn:E; [|reflexivity].
    apply is_prefix_iff in E as [r E]. rewrite <- app_assoc in E.
    apply app_inv_head in E. injection E as E _. congruence.
  - destruct (is_prefix (R ++ b :: p) (R ++ [a])) eqn:E; [|reflexivity].
    apply is_prefix_iff in E as [r E]. rewrite <- app_assoc in E.
    apply app_inv_head in E. injection E as E _. congruence.
Qed.

Lemma id_not_hash (id : string) : id <> (id ++ ".hash")%string.
Proof.
  intros H. apply (f_equal String.length) in H.
  rewrite append_length in H. simpl in H. lia.
Qed.

(** The marker is neither inside nor above the entry directory. *)
Lemma marker_outside_entry (self : BuildCache) (k : CacheKey) (id : string)
    (w : world) :
  isabs (_root self) = true -> plain_name id = true ->
  filename k = os_path_join (_root self) id ->
  comparable (resolve w (filename k)) (resolve w (_sha_file self k)) = false.
Proof.
  intros Hr Hid Hk.
  rewrite (resolve_entry self k id w Hid Hk),
    (resolve_marker self k id w Hr Hid Hk).
  apply comparable_siblings, id_not_hash.
Qed.



(** [invalidate] changes at most the entry directory and the marker. *)
Lemma modifies_invalidate (self : BuildCache) (k : CacheKey) :
  modifies (fun w q => is_prefix (resolve w (filename k)) q = true
                       \/ q = resolve w (_sha_file self k))
           (invalidate self k).
Proof.
  assert (St : stable (fun w q => is_prefix (resolve w (filename k)) q = true
                                  \/ q = resolve w (_sha_file self k))).
  { intros w w' q C [H| ->]; [left | right].
    - now rewrite <- (resolve_same_cwd w w' _ C).
    - now apply resolve_same_cwd. }
  unfold invalidate. apply modifies_bind; [exact St | |].
  - eapply modifies_weaken; [|apply modifies_safe_rmtree]. intros w q H. now left.
  - intros _. apply modifies_bind; [exact St | apply modifies_query |].
    intros ex. apply modifies_if; [|apply modifies_ret].
    eapply modifies_weaken; [|apply modifies_os_unlink]. intros w q H. now right.
Qed.

(* ===================================================================== *)
(** * Directories persist *)
(* ===================================================================== *)














(* ===================================================================== *)
(** * Runs from worlds that agree except at one path *)
(* ===================================================================== *)

Lemma agree_except_refl (mk : path) (w : world) : agree_except mk w w.
Proof. split; auto. Qed.

















(** ** Paths comparable with the entry directory are not the marker *)





(* ===================================================================== *)
(** * The entry directory during staging *)
(* ===================================================================== *)




Lemma safe_rmtree_effect (f : string) (w x : world) (r : result unit) :
  safe_rmtree f w = (r, x) ->
  r = Ok tt /\ getcwd x = getcwd w /\
  (forall q, is_prefix (resolve w f) q = false ->
             lookup (files x) q = lookup (files w) q) /\
  (os_path_isdir w f = true ->
   forall q, is_prefix (resolve w f) q = true -> q <> [] ->
             lookup (files x) q = None) /\
  (os_path_isdir w f = false -> x = w).
Proof.
  unfold safe_rmtree. destruct (os_path_isdir w f); intros [= <- <-].
  - split; [reflexivity|]. split; [reflexivity|]. split; [|split].
    + intros q Hq. simpl. now apply lookup_remove_tree_other.
    + intros _ q Hq Hn. simpl. rewrite lookup_nonroot by assumption.
      now rewrite fs_find_remove_tree, Hq.
    + discriminate.
  - repeat split; auto. discriminate.
Qed.





Lemma node_at_abs (w : world) (f : string) :
  isabs f = true -> node_at w f = lookup (files w) (resolve w f).
Proof.
  intros H. unfold node_at. destruct f; [discriminate | reflexivity].
Qed.

Lemma prefix_of_snoc (q R : path) (c : string) :
  is_prefix q (R ++ [c]) = true -> q <> R ++ [c] -> is_prefix q R = true.
Proof.
  intros H N. apply is_prefix_iff in H as [t H].
  destruct t as [|d t] using rev_ind.
  - rewrite app_nil_r in H. congruence.
  - rewrite app_assoc in H. apply app_inj_tail in H as [-> _].
    apply is_prefix_app.
Qed.

(* ===================================================================== *)
(** * [sorted] and the order of its input *)
(* ===================================================================== *)

Lemma string_lt_trans (a : string) :
  forall b c, String.compare a b = Lt -> String.compare b c = Lt ->
              String.compare a c = Lt.
Proof.
  induction a as [|x a IH]; intros [|y b] [|z c]; simpl;
    try discriminate; auto.
  unfold Ascii.compare.
  destruct (N.compare_spec (N_of_ascii x) (N_of_ascii y)) as [E1|L1|G1];
    try discriminate;
    destruct (N.compare_spec (N_of_ascii y) (N_of_ascii z)) as [E2|L2|G2];
    try discriminate;
    destruct (N.compare_spec (N_of_ascii x) (N_of_ascii z)) as [E3|L3|G3];
    try lia; eauto.
Qed.

Lemma string_leb_iff (a b : string) :
  String.leb a b = true <-> String.compare a b = Lt \/ a = b.
Proof.
  unfold String.leb. split.
  - destruct (String.compare a b) eqn:C; [|auto|discriminate].
    intros _. right. now apply String.compare_eq_iff.
  - intros [-> | ->]; [reflexivity|].
    destruct (String.leb_total b b) as [H|H]; exact H.
Qed.

Lemma string_leb_trans (a b c : string) :
  String.leb a b = true -> String.leb b c = true -> String.leb a c = true.
Proof.
  rewrite !string_leb_iff. intros [H1| ->] [H2| ->]; auto.
  left. eapply string_lt_trans; eassumption.
Qed.

Section SortedOrder.

Context {A : Type} (leb : A -> A -> bool).
Hypothesis leb_total : forall a b, leb a b = true \/ leb b a = true.
Hypothesis leb_antisym : forall a b, leb a b = true -> leb b a = true -> a = b.
Hypothesis leb_trans :
  forall a b c, leb a b = true -> leb b c = true -> leb a c = true.

Lemma insert_two (x y : A) (l : list A) :
  (if leb x y then x :: y :: l else y :: x :: l)
  = (if leb y x then y :: x :: l else x :: y :: l).
Proof.
  destruct (leb x y) eqn:X, (leb y x) eqn:Y; try reflexivity.
  - now rewrite (leb_antisym x y X Y).
  - destruct (leb_total x y); congruence.
Qed.

Lemma insert_sorted_comm (x y : A) (l : list A) :
  insert_sorted leb x (insert_sorted leb y l)
  = insert_sorted leb y (insert_sorted leb x l).
Proof.
  induction l as [|z l IH]; simpl.
  - apply insert_two.
  - destruct (leb y z) eqn:Y, (leb x z) eqn:X; simpl.
    + rewrite X, Y. apply insert_two.
    + rewrite Y. destruct (leb x y) eqn:XY.
      * now rewrite (leb_trans x y z XY Y) in X.
      * now rewrite X.
    + rewrite X. destruct (leb y x) eqn:YX.
      * now rewrite (leb_trans y x z YX X) in Y.
      * now rewrite Y.
    + now rewrite X, Y, IH.
Qed.

Lemma sorted_permutation (l l' : list A) :
  Permutation l l' -> sorted leb l = sorted leb l'.
Proof.
  induction 1 as [|x l l' _ IH|x y l|l l' l'' _ IH1 _ IH2]; simpl.
  - reflexivity.
  - unfold sorted in *. simpl. now rewrite IH.
  - unfold sorted. simpl. apply insert_sorted_comm.
  - congruence.
Qed.

End SortedOrder.

(* ===================================================================== *)
(** * The marker and the entry directory *)
(* ===================================================================== *)

Lemma open_read_by_node (w : world) (s : string) :
  open_read w s
  = match node_at w s with
    | Some (File data) => Ok data
    | Some Dir => Raise (IOError EISDIR)
    | None => Raise (IOError (if String.eqb s "" then ENOENT
                              else missing_errno (files w) (resolve w s)))
    end.
Proof.
  unfold open_read, node_at. destruct (String.eqb s ""); [reflexivity|].
  now destruct (lookup (files w) (resolve w s)) as [[d|]|].
Qed.

Lemma node_at_same (w w' : world) (s : string) :
  getcwd w' = getcwd w ->
  lookup (files w') (resolve w s) = lookup (files w) (resolve w s) ->
  node_at w' s = node_at w s.
Proof.
  intros C L. unfold node_at. destruct (String.eqb s ""); [reflexivity|].
  now rewrite (resolve_same_cwd w w' s C).
Qed.











(* ===================================================================== *)
(** * Isolation between ids *)
(* ===================================================================== *)





(* ===================================================================== *)
(** * Reading the marker *)
(* ===================================================================== *)

(** C7 (as amended). [needs_update] answers [True] when reading the
    marker fails with [ENOENT]; it answers [False] exactly when the marker
    can be read and its content, stripped of surrounding white space, is
    the digest of the key; and every other failure of the read is raised
    to the caller. *)
Theorem needs_update_by_marker (self : BuildCache) (w : world) (k : CacheKey) :
  (open_read w (_sha_file self k) = Raise (IOError ENOENT) ->
   needs_update self w k = Ok true) /\
  (needs_update self w k = Ok false
   <-> exists stored, open_read w (_sha_file self k) = Ok stored
                      /\ Str.strip stored = hash k) /\
  (forall e, open_read w (_sha_file self k) = Raise e ->
             e <> IOError ENOENT -> needs_update self w k = Raise e).
Proof.
  unfold needs_update, _read_sha.
  destruct (open_read w (_sha_file self k)) as [d|e] eqn:E.
  - split; [discriminate|]. split; [|discriminate].
    split.
    + intros [= H]. apply negb_false_iff, String.eqb_eq in H. now exists d.
    + intros [s [[= <-] H]]. rewrite H, String.eqb_refl. reflexivity.
  - split; [intros [= ->]; reflexivity|].
    split.
    + split; [|intros [s [H _]]; discriminate].
      destruct e as [| | |[]| |]; simpl; discriminate.
    + intros e' [= <-] Hne.
      destruct e as [| | |[]| |]; simpl; try reflexivity. contradiction.
Qed.

Lemma needs_update_by_marker_witness :
  needs_update ex_cache ex_world ex_key = Ok true /\
  needs_update ex_cache ex_padded ex_key = Ok false /\
  needs_update ex_cache ex_marker_dir ex_key = Raise (IOError EISDIR).
Proof.
  split; [|split].
  - apply (proj1 (needs_update_by_marker ex_cache ex_world ex_key)).
    vm_compute; reflexivity.
  - apply (proj1 (proj2 (needs_update_by_marker ex_cache ex_padded ex_key))).
    exists (hash ex_key ++ String (ascii_of_nat 10) "")%string.
    split; vm_compute; reflexivity.
  - apply (proj2 (proj2 (needs_update_by_marker ex_cache ex_marker_dir ex_key))).
    + vm_compute; reflexivity.
    + discriminate.
Defined.

(* ===================================================================== *)
(** * Keys of targets *)
(* ===================================================================== *)

(** Reading the sources fails with an [IOError] or not at all. *)
Lemma hash_files_raises (w : world) (l : list (string * string)) (h : sha)
    (e : exn) :
  hash_files w h l = Raise e -> exists n, e = IOError n.
Proof.
  revert h; induction l as [|[rel f] l IH]; intros h; simpl; [discriminate|].
  destruct (open_read w f) as [d|e'] eqn:E; [apply IH|].
  intros [= <-]. unfold open_read in E.
  destruct (String.eqb f ""); [injection E as <-; eauto|].
  destruct (lookup (files w) (resolve w f)) as [[d|]|];
    [discriminate | injection E as <-; eauto | injection E as <-; eauto].
Qed.

Lemma sources_hash_raises (w : world) (paths : list string) (e : exn) :
  _sources_hash w paths = Raise e -> exists n, e = IOError n.
Proof. apply hash_files_raises. Qed.

(** C6 (as amended). For a scope whose selector does not itself raise
    [ValueError]: [key_for_target] raises [ValueError] if and only if
    neither the scope is applicable to the target nor a
    [fingerprint_extra] is supplied; and when one of the two holds, and
    the selector and the reading of the sources succeed, it returns the
    key of the sorted selected sources. *)
Theorem key_for_target_outcome
    (self : BuildCache) (w : world) (target : Target)
    (scope : option SourceScope) (fingerprint_extra : option (sha -> sha)) :
  (forall s, scope = Some s -> select s target <> Raise ValueError) ->
  (key_for_target self w target scope fingerprint_extra = Raise ValueError
   <-> applicable scope target = false /\ supplied fingerprint_extra = false)
  /\
  (applicable scope target || supplied fingerprint_extra = true ->
   forall selected h,
     select (match scope with None => NO_SOURCES | Some s => s end) target
     = Ok selected ->
     _sources_hash w (sorted String.leb selected) = Ok h ->
     key_for_target self w target scope fingerprint_extra
     = Ok (_key_for self (target_id target) (with_extra fingerprint_extra h)
             (sorted String.leb selected))).
Proof.
  intros Hsel.
  assert (G : (match scope with None => true | Some s => negb (valid s target) end
               && match fingerprint_extra with None => true | Some _ => false end)
              = negb (applicable scope target || supplied fingerprint_extra)).
  { destruct scope as [s|], fingerprint_extra as [x|]; simpl;
      try reflexivity; destruct (valid s target); reflexivity. }
  unfold key_for_target. rewrite G.
  destruct (applicable scope target || supplied fingerprint_extra) eqn:A; simpl.
  - split.
    + split.
      * intros H.
        destruct (select match scope with None => NO_SOURCES | Some s => s end
                         target) as [sel|e] eqn:S.
        -- destruct (_sources_hash w (sorted String.leb sel)) as [h|e] eqn:Hh;
             [discriminate|].
           injection H as ->.
           destruct (sources_hash_raises _ _ _ Hh) as [n Hn]. discriminate.
        -- injection H as ->. destruct scope as [s|].
           ++ now apply Hsel in S.
           ++ discriminate.
      * intros [H1 H2]. rewrite H1, H2 in A. discriminate.
    + intros _ selected h S Hh. rewrite S, Hh. reflexivity.
  - split; [|discriminate].
    split; [intros _; now apply orb_false_iff in A | reflexivity].
Qed.

Lemma key_for_target_outcome_witness :
  (key_for_target ex_cache ex_world target_out (Some TARGET_SOURCES) None
   = Raise ValueError
   <-> applicable (Some TARGET_SOURCES) target_out = false
       /\ supplied None = false)
  /\
  (applicable (Some TARGET_SOURCES) target_out || supplied None = true ->
   forall selected h,
     select TARGET_SOURCES target_out = Ok selected ->
     _sources_hash ex_world (sorted String.leb selected) = Ok h ->
     key_for_target ex_cache ex_world target_out (Some TARGET_SOURCES) None
     = Ok (_key_for ex_cache (target_id target_out) (with_extra None h)
             (sorted String.leb selected))).
Proof.
  apply (key_for_target_outcome ex_cache ex_world target_out
           (Some TARGET_SOURCES) None).
  intros s [= <-]. discriminate.
Defined.

(* ===================================================================== *)
(** * The round trip of [update] and [needs_update] *)
(* ===================================================================== *)














(** ** Two contents with one digest *)

















(* ===================================================================== *)
(** * What the digest sees of contents and names *)
(* ===================================================================== *)

Lemma hash_files_reads (w : world) (l : list (string * string)) :
  forall (h s : sha),
    hash_files w h l = Ok s ->
    forall g, In g (map snd l) -> exists d, open_read w g = Ok d.
Proof.
  induction l as [|[rel f] l IH]; intros h s H g Hg; [contradiction|].
  simpl in H. destruct (open_read w f) as [d|e] eqn:E; [|discriminate].
  destruct Hg as [<-|Hg]; [eauto|]. exact (IH _ _ H g Hg).
Qed.

Lemma hash_files_stream (w : world) (l : list (string * string)) :
  forall h : sha,
    (forall g, In g (map snd l) -> exists d, open_read w g = Ok d) ->
    hash_files w h l = Ok (h ++ byte_stream w l)%string.
Proof.
  induction l as [|[rel f] l IH]; intros h H; simpl.
  - now rewrite append_nil_r.
  - destruct (H f (or_introl eq_refl)) as [d E]. rewrite E.
    rewrite IH by (intros g Hg; apply H; now right).
    unfold sha_update, to_bytes. now rewrite !append_assoc.
Qed.

Section ContentChange.

Variables (w1 w2 : world) (c1 c2 : string).
Variable changed : string -> Prop.
Hypothesis Hchanged :
  forall g, changed g -> open_read w1 g = Ok c1 /\ open_read w2 g = Ok c2.
Hypothesis Hdiff : c1 <> c2.

Lemma stream_lengths (l : list (string * string)) :
  (forall g, In g (map snd l) ->
             changed g \/ open_read w2 g = open_read w1 g) ->
  exists n : nat,
    String.length (byte_stream w2 l) + n * String.length c1
    = String.length (byte_stream w1 l) + n * String.length c2
    /\ ((exists g, In g (map snd l) /\ changed g) -> 1 <= n).
Proof.
  induction l as [|[rel f] l IH]; intros H.
  - exists 0. split; [reflexivity|]. intros [g [[] _]].
  - destruct IH as [n [L P]]; [intros g Hg; apply H; now right|].
    simpl. rewrite !append_length.
    destruct (H f (or_introl eq_refl)) as [C|E].
    + destruct (Hchanged f C) as [E1 E2]. rewrite E1, E2.
      exists (S n). split; [lia | intros _; lia].
    + rewrite E. exists n. split; [lia|].
      intros [g [[G|Hg] C]]; [|apply P; eauto].
      simpl in G. subst g.
      destruct (Hchanged _ C) as [E1 E2]. rewrite E1, E2 in E.
      injection E as E. congruence.
Qed.

Lemma stream_differs (l : list (string * string)) :
  (forall g, In g (map snd l) ->
             changed g \/ open_read w2 g = open_read w1 g) ->
  (exists g, In g (map snd l) /\ changed g) ->
  byte_stream w2 l <> byte_stream w1 l.
Proof.
  intros H Hex.
  destruct (Nat.eq_dec (String.length c1) (String.length c2)) as [Len|Len].
  - induction l as [|[rel f] l IH]; [destruct Hex as [g [[] _]]|].
    simpl. intros S. apply append_inv_head in S.
    destruct (H f (or_introl eq_refl)) as [C|E].
    + destruct (Hchanged f C) as [E1 E2]. rewrite E1, E2 in S.
      apply append_same_length in S; [|now symmetry].
      destruct S as [S _]. congruence.
    + rewrite E in S. apply append_inv_head in S.
      revert S. apply IH; [intros g Hg; apply H; now right|].
      destruct Hex as [g [[G|Hg] C]]; [|eauto].
      simpl in G. subst g.
      destruct (Hchanged _ C) as [E1 E2]. rewrite E1, E2 in E.
      injection E as E. congruence.
  - intros S. destruct (stream_lengths l H) as [n [L P]].
    specialize (P Hex). rewrite S in L. nia.
Qed.

End ContentChange.

(** ** Rewriting a file in place *)

Lemma keys_set (p : path) (n : fnode) (fs : FS) :
  fs_find fs p <> None -> map fst (fs_set p n fs) = map fst fs.
Proof.
  induction fs as [|[q m] fs IH]; simpl; [congruence|].
  destruct (path_eqb q p) eqn:E; simpl.
  - intros _. apply path_eqb_eq in E. now subst.
  - intros H. now rewrite IH.
Qed.

Lemma os_listdir_keys (fs fs' : FS) (q : path) :
  map fst fs = map fst fs' -> os_listdir fs q = os_listdir fs' q.
Proof.
  revert fs'; induction fs as [|[k m] fs IH]; intros [|[k' m'] fs'] H;
    try discriminate; [reflexivity|].
  simpl in *. injection H as -> H. now rewrite (IH fs' H).
Qed.

Section RewriteFile.

Variables (w : world) (p : path) (c1 c2 : string).
Hypothesis Hfile : lookup (files w) p = Some (File c1).

Lemma rewrite_nonroot : p <> [].
Proof. intros ->. discriminate. Qed.

Lemma rewrite_lookup (q : path) :
  lookup (files (rewrite_file w p c2)) q
  = if path_eqb p q then Some (File c2) else lookup (files w) q.
Proof.
  simpl. destruct (path_eqb p q) eqn:E.
  - apply path_eqb_eq in E. subst q. apply lookup_set_same, rewrite_nonroot.
  - apply lookup_set_other. intros ->. now rewrite path_eqb_refl in E.
Qed.

Lemma rewrite_resolve (s : string) :
  resolve (rewrite_file w p c2) s = resolve w s.
Proof. reflexivity. Qed.

Lemma rewrite_isdir (s : string) :
  os_path_isdir (rewrite_file w p c2) s = os_path_isdir w s.
Proof.
  unfold os_path_isdir, node_at. destruct (String.eqb s ""); [reflexivity|].
  rewrite rewrite_lookup, rewrite_resolve.
  destruct (path_eqb p (resolve w s)) eqn:E; [|reflexivity].
  apply path_eqb_eq in E. now rewrite <- E, Hfile.
Qed.

Lemma rewrite_keys :
  map fst (files (rewrite_file w p c2)) = map fst (files w).
Proof.
  simpl. apply keys_set. rewrite <- lookup_nonroot by apply rewrite_nonroot.
  now rewrite Hfile.
Qed.

Lemma rewrite_walk_fuel (fuel : nat) :
  forall top, os_walk_fuel fuel (rewrite_file w p c2) top
              = os_walk_fuel fuel w top.
Proof.
  induction fuel as [|fuel IH]; intros top; [reflexivity|].
  cbn [os_walk_fuel]. rewrite rewrite_resolve.
  rewrite (os_listdir_keys _ _ (resolve w top) rewrite_keys).
  f_equal.
  - f_equal. f_equal.
    + apply filter_ext. intros name. apply rewrite_isdir.
    + apply filter_ext. intros name. now rewrite rewrite_isdir.
  - rewrite (filter_ext _ _ (fun name => rewrite_isdir (os_path_join top name))).
    apply flat_map_ext. intros name. apply IH.
Qed.

Lemma rewrite_walk (top : string) :
  os_walk (rewrite_file w p c2) top = os_walk w top.
Proof.
  unfold os_walk. rewrite rewrite_walk_fuel.
  now rewrite <- (length_map fst (files (rewrite_file w p c2))), rewrite_keys,
    length_map.
Qed.

Lemma rewrite_walk_paths (paths : list string) :
  _walk_paths (rewrite_file w p c2) paths = _walk_paths w paths.
Proof.
  unfold _walk_paths. apply flat_map_ext. intros path.
  now rewrite rewrite_isdir, rewrite_walk.
Qed.

Lemma rewrite_read_there (g : string) (d : string) :
  open_read w g = Ok d -> resolve w g = p ->
  d = c1 /\ open_read (rewrite_file w p c2) g = Ok c2.
Proof.
  unfold open_read. destruct (String.eqb g ""); [discriminate|].
  rewrite rewrite_lookup, rewrite_resolve. intros H R.
  rewrite R in H |- *.
  rewrite Hfile in H. rewrite path_eqb_refl. injection H as <-. auto.
Qed.

Lemma rewrite_read_elsewhere (g : string) (d : string) :
  open_read w g = Ok d -> resolve w g <> p ->
  open_read (rewrite_file w p c2) g = Ok d.
Proof.
  unfold open_read. destruct (String.eqb g ""); [discriminate|].
  rewrite rewrite_lookup, rewrite_resolve. intros H N.
  destruct (path_eqb p (resolve w g)) eqn:E.
  - apply path_eqb_eq in E. congruence.
  - destruct (lookup (files w) (resolve w g)) as [[x|]|]; congruence.
Qed.

End RewriteFile.

(** C8 (as amended). When the content of one of the walked files is
    replaced by a different content, all names staying as they are, the
    bytes fed to the digest change: [_sources_hash] succeeds as before,
    and its accumulated stream is not the one of before. *)
Theorem content_change_changes_stream
    (w : world) (p : path) (c1 c2 : string) (paths : list string) (s1 : sha) :
  lookup (files w) p = Some (File c1) ->
  c1 <> c2 ->
  (exists f, In f (map snd (_walk_paths w paths)) /\ resolve w f = p) ->
  _sources_hash w paths = Ok s1 ->
  s1 = byte_stream w (_walk_paths w paths) /\
  exists s2, _sources_hash (rewrite_file w p c2) paths = Ok s2 /\ s2 <> s1.
Proof.
  intros Hfile Hdiff Hin H. unfold _sources_hash in *.
  rewrite (rewrite_walk_paths w p c1 c2 Hfile).
  set (W := _walk_paths w paths) in *.
  pose proof (hash_files_reads w W _ _ H) as Reads.
  rewrite (hash_files_stream w W hashlib_sha1 Reads) in H.
  injection H as <-. split; [reflexivity|].
  assert (Reads2 : forall g, In g (map snd W) ->
            (resolve w g = p /\ open_read w g = Ok c1
             /\ open_read (rewrite_file w p c2) g = Ok c2)
            \/ open_read (rewrite_file w p c2) g = open_read w g).
  { intros g Hg. destruct (Reads g Hg) as [d E].
    destruct (path_eqb (resolve w g) p) eqn:P.
    - apply path_eqb_eq in P. left.
      destruct (rewrite_read_there w p c1 c2 Hfile g d E P) as [-> R]. auto.
    - right. rewrite E. apply (rewrite_read_elsewhere w p c1 c2 Hfile g d E).
      intros Q. now rewrite Q, path_eqb_refl in P. }
  exists (byte_stream (rewrite_file w p c2) W). split.
  - rewrite hash_files_stream; [reflexivity|].
    intros g Hg. destruct (Reads2 g Hg) as [(_ & _ & R)|R]; [eauto|].
    rewrite R. now apply Reads.
  - simpl.
    apply (stream_differs w (rewrite_file w p c2) c1 c2
             (fun g => In g (map snd W) /\ resolve w g = p)).
    + intros g [Hg Hp]. destruct (Reads2 g Hg) as [(_ & R1 & R2)|R]; [auto|].
      destruct (Reads g Hg) as [d E].
      destruct (rewrite_read_there w p c1 c2 Hfile g d E Hp) as [-> R2]. auto.
    + exact Hdiff.
    + intros g Hg. destruct (Reads2 g Hg) as [(Hp & _)|R]; auto.
    + destruct Hin as [f [Hf Hp]]. exists f. auto.
Qed.

Lemma content_change_changes_stream_witness :
  "fone"%string = byte_stream (src_world "one") (_walk_paths (src_world "one") ["/src"])
  /\ exists s2,
       _sources_hash (rewrite_file (src_world "one") ["src"; "f"] "two") ["/src"]
       = Ok s2 /\ s2 <> "fone"%string.
Proof.
  apply (content_change_changes_stream (src_world "one") ["src"; "f"]
           "one" "two" ["/src"] "fone").
  - reflexivity.
  - discriminate.
  - exists "/src/f". split; vm_compute; [left|]; reflexivity.
  - vm_compute; reflexivity.
Defined.

(* ===================================================================== *)
(** * Calling [update] twice *)
(* ===================================================================== *)




(* ===================================================================== *)
(** * The fingerprint on concrete trees *)
(* ===================================================================== *)

(** C1 (evaluation at the failing input). The directory [/d] holds [a]
    (content [x]) and [b] (content [y]). Both worlds hold the same files;
    they differ in the order in which the system lists [/d]. The walk
    follows that order, the bytes fed to SHA-1 are [axby] in one and [byax]
    in the other, and the digests differ. *)
Theorem sources_hash_follows_listing_order :
  Permutation (files listed_ab) (files listed_ba) /\
  _walk_paths listed_ab ["/d"] = [("a", "/d/a"); ("b", "/d/b")] /\
  _walk_paths listed_ba ["/d"] = [("b", "/d/b"); ("a", "/d/a")] /\
  _sources_hash listed_ab ["/d"] = Ok "axby" /\
  _sources_hash listed_ba ["/d"] = Ok "byax" /\
  hexdigest "axby" <> hexdigest "byax".
Proof.
  split; [unfold listed_ab, listed_ba; simpl; apply perm_skip, perm_swap|].
  split; [by_evaluation|]. split; [by_evaluation|].
  split; [by_evaluation|]. split; [by_evaluation|].
  intro H. vm_compute in H. discriminate H.
Qed.

(** The order of the input paths does not matter: they are sorted before
    they are walked. *)
Theorem sources_hash_ignores_input_order
    (w : world) (paths paths' : list string) :
  Permutation paths paths' ->
  _walk_paths w paths = _walk_paths w paths' /\
  _sources_hash w paths = _sources_hash w paths'.
Proof.
  intros P.
  assert (S : sorted String.leb paths = sorted String.leb paths').
  { apply sorted_permutation; [apply String.leb_total | apply String.leb_antisym
                              | apply string_leb_trans | exact P]. }
  unfold _sources_hash, _walk_paths. now rewrite S.
Qed.

Lemma sources_hash_ignores_input_order_witness :
  _walk_paths listed_ab ["/d/b"; "/d/a"] = _walk_paths listed_ab ["/d/a"; "/d/b"] /\
  _sources_hash listed_ab ["/d/b"; "/d/a"] = _sources_hash listed_ab ["/d/a"; "/d/b"].
Proof.
  apply (sources_hash_ignores_input_order listed_ab ["/d/b"; "/d/a"]
           ["/d/a"; "/d/b"]).
  apply perm_swap.
Defined.

(** C10. Names and contents reach the hash with nothing between them: the
    file [ab] holding [c] and the file [a] holding [bc] are different file
    sets, both feed the bytes [abc], and their keys carry the same digest. *)
Theorem sources_hash_not_injective :
  exists (w1 w2 : world) (paths : list string)
         (n1 f1 c1 n2 f2 c2 : string) (h : sha) (k1 k2 : CacheKey),
    _walk_paths w1 paths = [(n1, f1)] /\ open_read w1 f1 = Ok c1 /\
    _walk_paths w2 paths = [(n2, f2)] /\ open_read w2 f2 = Ok c2 /\
    n1 <> n2 /\ c1 <> c2 /\
    _sources_hash w1 paths = Ok h /\ _sources_hash w2 paths = Ok h /\
    key_for ex_cache w1 "libfoo" paths = Ok k1 /\
    key_for ex_cache w2 "libfoo" paths = Ok k2 /\
    hash k1 = hash k2.
Proof.
  exists named_ab, named_a, ["/d"], "ab", "/d/ab", "c", "a", "/d/a", "bc", "abc".
  exists (_key_for ex_cache "libfoo" "abc" ["/d"]).
  exists (_key_for ex_cache "libfoo" "abc" ["/d"]).
  split; [by_evaluation|]. split; [by_evaluation|].
  split; [by_evaluation|]. split; [by_evaluation|].
  split; [discriminate|]. split; [discriminate|].
  split; [by_evaluation|]. split; [by_evaluation|].
  split; [by_evaluation|]. split; [by_evaluation|].
  reflexivity.
Qed.

(** C8 (counterexample). The sources [/s/ab] and [/s/aba] both hold [a].
    Renaming [/s/ab] to [/s/ba] keeps every content and changes one
    relative name, and it moves the file behind [/s/aba] in the sorted
    order: the bytes fed to the hash are [abaabaa] before and after, so the
    digest does not change. *)
Lemma rename_can_keep_the_digest :
  _walk_paths before_rename ["/s/ab"; "/s/aba"]
    = [("ab", "/s/ab"); ("aba", "/s/aba")] /\
  _walk_paths after_rename ["/s/ba"; "/s/aba"]
    = [("aba", "/s/aba"); ("ba", "/s/ba")] /\
  open_read before_rename "/s/ab" = Ok "a" /\
  open_read after_rename "/s/ba" = Ok "a" /\
  open_read before_rename "/s/aba" = open_read after_rename "/s/aba" /\
  _sources_hash before_rename ["/s/ab"; "/s/aba"] = Ok "abaabaa" /\
  _sources_hash after_rename ["/s/ba"; "/s/aba"] = Ok "abaabaa" /\
  key_for ex_cache before_rename "libfoo" ["/s/ab"; "/s/aba"]
    = Ok (_key_for ex_cache "libfoo" "abaabaa" ["/s/ab"; "/s/aba"]) /\
  key_for ex_cache after_rename "libfoo" ["/s/ba"; "/s/aba"]
    = Ok (_key_for ex_cache "libfoo" "abaabaa" ["/s/ba"; "/s/aba"]) /\
  hash (_key_for ex_cache "libfoo" "abaabaa" ["/s/ab"; "/s/aba"])
    = hash (_key_for ex_cache "libfoo" "abaabaa" ["/s/ba"; "/s/aba"]).
Proof.
  split; [by_evaluation|]. split; [by_evaluation|].
  split; [by_evaluation|]. split; [by_evaluation|].
  split; [by_evaluation|]. split; [by_evaluation|].
  split; [by_evaluation|]. split; [by_evaluation|].
  split; [by_evaluation|]. by_evaluation.
Qed.

(* ===================================================================== *)
(** * The store on concrete trees *)
(* ===================================================================== *)



(** C6 (counterexample). The scope is applicable to the target, and the
    file it selects does not exist: the call raises [IOError] instead of
    returning a key. *)
Lemma key_for_target_can_raise_when_applicable :
  valid TARGET_SOURCES target_missing_source = true /\
  applicable (Some TARGET_SOURCES) target_missing_source = true /\
  key_for_target ex_cache ex_world target_missing_source
    (Some TARGET_SOURCES) None = Raise (IOError ENOENT).
Proof. split; [by_evaluation|]. split; by_evaluation. Qed.

(** The default scope on a target without [expand_files], with a
    [fingerprint_extra]. The scope is not applicable and the extra is
    there, so the guard does not raise [ValueError]; the scope is not
    replaced by [NO_SOURCES], since it is not [None]; its selector calls
    [expand_files] and the call raises [AttributeError]. With [NO_SOURCES]
    in its place the same call returns a key. *)
Lemma key_for_target_inapplicable_scope_with_extra :
  applicable (Some TARGET_SOURCES) target_plain = false /\
  supplied (Some (fun h => sha_update h "flags")) = true /\
  key_for_target ex_cache ex_world target_plain
    (Some TARGET_SOURCES) (Some (fun h => sha_update h "flags"))
  = Raise AttributeError /\
  key_for_target ex_cache ex_world target_plain
    (Some NO_SOURCES) (Some (fun h => sha_update h "flags"))
  = Ok (_key_for ex_cache "libfoo" "flags" []) /\
  key_for_target ex_cache ex_world target_plain
    (Some TARGET_SOURCES) None
  = Raise ValueError.
Proof.
  split; [by_evaluation|]. split; [by_evaluation|].
  split; [by_evaluation|]. split; by_evaluation.
Qed.

(** C7 (counterexample). The marker holds the digest followed by a
    newline: what is stored is not the digest, and [needs_update] answers
    [False]. *)
Lemma padded_marker_counts_as_fresh :
  exists stored,
    open_read ex_padded (_sha_file ex_cache ex_key) = Ok stored /\
    stored <> hash ex_key /\
    needs_update ex_cache ex_padded ex_key = Ok false.
Proof.
  exists (hash ex_key ++ String (ascii_of_nat 10) "")%string.
  split; [by_evaluation|].
  split; [|by_evaluation].
  intro H. vm_compute in H. discriminate H.
Qed.

(* ===================================================================== *)
(** * Keys: further properties *)
(* ===================================================================== *)

(** [_key] turns a path into a name without separators: the result has
    the length of the argument and no slash, a name without slashes is
    returned as it is, and applying it twice changes nothing more. The
    result need not be a usable directory name: for [./] it is [..]. *)
Theorem key_has_no_slash (s : string) :
  Str.has_slash (_key s) = false /\
  String.length (_key s) = String.length s /\
  (Str.has_slash s = false -> _key s = s) /\
  _key (_key s) = _key s /\
  _key "./" = "..".
Proof.
  split; [|split; [|split; [|split; [|reflexivity]]]].
  - induction s as [|c s IH]; [reflexivity|]. simpl.
    destruct (Ascii.eqb c Str.slash) eqn:E; simpl; [exact IH|].
    now rewrite E.
  - induction s as [|c s IH]; simpl; congruence.
  - induction s as [|c s IH]; [reflexivity|]. simpl. intros H.
    apply orb_false_iff in H as [Hc Hs]. now rewrite Hc, IH.
  - induction s as [|c s IH]; [reflexivity|]. simpl. rewrite IH.
    destruct (Ascii.eqb c Str.slash) eqn:E; [reflexivity|]. now rewrite E.
Qed.

(** The default scopes need [expand_files]. On a target without it, with
    a [fingerprint_extra], [key_for_target] passes its guard and raises
    [AttributeError] from the selector, in every world and for every
    extra; without the extra it raises [ValueError]; and with [NO_SOURCES]
    and the extra it returns the key of the extra alone. *)
Theorem default_scopes_need_expand_files
    (self : BuildCache) (w : world) (target : Target) (extra : sha -> sha) :
  expand_files target = None ->
  key_for_target self w target (Some TARGET_SOURCES) (Some extra)
  = Raise AttributeError /\
  key_for_target self w target (Some TRANSITIVE_SOURCES) (Some extra)
  = Raise AttributeError /\
  key_for_target self w target (Some TARGET_SOURCES) None = Raise ValueError /\
  key_for_target self w target (Some NO_SOURCES) (Some extra)
  = Ok (_key_for self (target_id target) (extra hashlib_sha1) []).
Proof.
  intros H. unfold key_for_target, TARGET_SOURCES, TRANSITIVE_SOURCES,
    NO_SOURCES, for_selector, call_expand_files, has_expand_files.
  cbn [select valid]. rewrite H. cbn. repeat split.
Qed.

Lemma default_scopes_need_expand_files_witness :
  key_for_target ex_cache ex_world target_plain (Some TARGET_SOURCES)
    (Some (fun h => sha_update h "flags")) = Raise AttributeError /\
  key_for_target ex_cache ex_world target_plain (Some TRANSITIVE_SOURCES)
    (Some (fun h => sha_update h "flags")) = Raise AttributeError /\
  key_for_target ex_cache ex_world target_plain (Some TARGET_SOURCES) None
  = Raise ValueError /\
  key_for_target ex_cache ex_world target_plain (Some NO_SOURCES)
    (Some (fun h => sha_update h "flags"))
  = Ok (_key_for ex_cache (target_id target_plain)
          (sha_update hashlib_sha1 "flags") []).
Proof.
  apply (default_scopes_need_expand_files ex_cache ex_world target_plain
           (fun h => sha_update h "flags")).
  reflexivity.
Defined.



(* ===================================================================== *)
(** * The walk: empty directories and unreadable paths *)
(* ===================================================================== *)

Lemma flat_map_insert_nil {A B} (leb : A -> A -> bool) (f : A -> list B)
    (d : A) (l : list A) :
  f d = [] -> flat_map f (insert_sorted leb d l) = flat_map f l.
Proof.
  intros H. induction l as [|x l IH]; simpl.
  - now rewrite H.
  - destruct (leb d x); simpl; [now rewrite H | now rewrite IH].
Qed.

Lemma In_insert_sorted {A} (leb : A -> A -> bool) (x y : A) (l : list A) :
  In x (insert_sorted leb y l) <-> x = y \/ In x l.
Proof.
  induction l as [|z l IH]; simpl; [intuition|].
  destruct (leb y z); simpl; [intuition|]. rewrite IH. intuition.
Qed.

Lemma In_sorted {A} (leb : A -> A -> bool) (x : A) (l : list A) :
  In x (sorted leb l) <-> In x l.
Proof.
  unfold sorted. induction l as [|y l IH]; simpl; [reflexivity|].
  rewrite In_insert_sorted, IH. intuition.
Qed.

(** A directory without entries is not seen by the fingerprint: with it
    among the sources, the walk yields the same files and the hash gets
    the same bytes as without it. *)
Theorem empty_directory_is_invisible
    (w : world) (d : string) (paths : list string) :
  os_path_isdir w d = true ->
  os_listdir (files w) (resolve w d) = [] ->
  _walk_paths w (d :: paths) = _walk_paths w paths /\
  _sources_hash w (d :: paths) = _sources_hash w paths.
Proof.
  intros Hd Hl.
  assert (W : _walk_paths w (d :: paths) = _walk_paths w paths).
  { unfold _walk_paths. change (sorted String.leb (d :: paths))
      with (insert_sorted String.leb d (sorted String.leb paths)).
    apply flat_map_insert_nil. rewrite Hd.
    unfold os_walk. cbn [os_walk_fuel]. rewrite Hl. reflexivity. }
  split; [exact W|]. unfold _sources_hash. now rewrite W.
Qed.

Lemma empty_directory_is_invisible_witness :
  _walk_paths ex_world ["/cache/0"; "/home/out.bin"]
  = _walk_paths ex_world ["/home/out.bin"] /\
  _sources_hash ex_world ["/cache/0"; "/home/out.bin"]
  = _sources_hash ex_world ["/home/out.bin"].
Proof.
  apply (empty_directory_is_invisible ex_world "/cache/0" ["/home/out.bin"]);
    reflexivity.
Defined.

Lemma walk_paths_of_file (w : world) (p : string) (paths : list string) :
  In p paths -> os_path_isdir w p = false ->
  In p (map snd (_walk_paths w paths)).
Proof.
  intros Hin Hd. apply in_map_iff. exists (os_path_basename p, p).
  split; [reflexivity|]. unfold _walk_paths.
  apply in_flat_map. exists p. split; [now apply In_sorted|].
  rewrite Hd. now left.
Qed.

(** A source that is not a directory and cannot be read makes the
    fingerprint fail: [_sources_hash], and [key_for] with it, raise an
    [IOError]. A path that does not exist is such a source. *)
Theorem unreadable_source_raises
    (self : BuildCache) (w : world) (id p : string) (paths : list string) :
  In p paths -> os_path_isdir w p = false ->
  (forall data, open_read w p <> Ok data) ->
  exists n, _sources_hash w paths = Raise (IOError n) /\
            key_for self w id paths = Raise (IOError n).
Proof.
  intros Hin Hd Hr. unfold key_for.
  destruct (_sources_hash w paths) as [h|e] eqn:E.
  - exfalso. unfold _sources_hash in E.
    destruct (hash_files_reads w _ _ _ E p (walk_paths_of_file w p paths Hin Hd))
      as [data R].
    exact (Hr data R).
  - destruct (sources_hash_raises w paths e E) as [n ->]. eauto.
Qed.

Lemma unreadable_source_raises_witness :
  exists n, _sources_hash ex_world ["/home/out.bin"; "/home/missing"]
            = Raise (IOError n) /\
            key_for ex_cache ex_world "libfoo" ["/home/out.bin"; "/home/missing"]
            = Raise (IOError n).
Proof.
  apply (unreadable_source_raises ex_cache ex_world "libfoo" "/home/missing").
  - right. left. reflexivity.
  - reflexivity.
  - intros data H. vm_compute in H. discriminate H.
Defined.

(* ===================================================================== *)
(** * Creating the cache *)
(* ===================================================================== *)


Lemma node_at_nonempty (w : world) (s : string) :
  s <> "" -> node_at w s = lookup (files w) (resolve w s).
Proof.
  intros H. unfold node_at.
  destruct (String.eqb s "") eqn:E; [now apply String.eqb_eq in E | reflexivity].
Qed.






(* ===================================================================== *)
(** * Invalidating an entry *)
(* ===================================================================== *)

Lemma file_above_none (fs : FS) (todo : path) :
  forall done,
    (forall t, is_prefix t todo = true -> t <> todo ->
               forall data, lookup fs (done ++ t) <> Some (File data)) ->
    file_above fs done todo = false.
Proof.
  induction todo as [|c todo IH]; intros done H; [reflexivity|].
  simpl. pose proof (H [] eq_refl ltac:(discriminate)) as H0.
  rewrite app_nil_r in H0.
  assert (R : file_above fs (done ++ [c]) todo = false).
  { apply IH. intros t Ht Hn data. rewrite <- app_assoc.
    apply (H (c :: t)); [simpl; now rewrite String.eqb_refl | congruence]. }
  destruct (lookup fs done) as [[d|]|]; [now specialize (H0 d) | exact R..].
Qed.

Section Invalidate.

Variables (self : BuildCache) (k : CacheKey) (id : string) (w : world).
Hypothesis Hr : isabs (_root self) = true.
Hypothesis Hid : plain_name id = true.
Hypothesis Hk : filename k = os_path_join (_root self) id.

(** What [invalidate] does, step by step. *)
Lemma invalidate_effect :
  let x := snd (safe_rmtree (filename k) w) in
  node_at x (_sha_file self k) = node_at w (_sha_file self k) /\
  os_path_isdir x (filename k) = false /\
  (os_path_isdir w (filename k) = true ->
   forall r, lookup (files x) (resolve w (filename k) ++ r) = None) /\
  invalidate self k w
  = match node_at w (_sha_file self k) with
    | Some (File _) =>
        (Ok tt, set_files x (fs_remove (resolve w (_sha_file self k)) (files x)))
    | Some Dir => (Raise (OSError EISDIR), x)
    | None => (Ok tt, x)
    end.
Proof.
  pose proof (filename_abs self k id Hr Hid Hk) as Hf.
  pose proof (marker_outside_entry self k id w Hr Hid Hk) as Hout.
  pose proof (resolve_entry self k id w Hid Hk) as HE.
  pose proof (sha_file_nonempty self k) as Hs.
  destruct (safe_rmtree (filename k) w) as [r x] eqn:Rm. cbn [snd].
  destruct (safe_rmtree_effect _ _ _ _ Rm) as (-> & Cx & Out & In1 & No).
  assert (PM : is_prefix (resolve w (filename k)) (resolve w (_sha_file self k))
               = false).
  { unfold comparable in Hout. now apply orb_false_iff in Hout as [? _]. }
  assert (En : forall r, resolve w (filename k) ++ r <> []).
  { intros r X. rewrite HE in X. apply app_eq_nil in X as [X _].
    now apply app_eq_nil in X as [_ X]. }
  assert (N : node_at x (_sha_file self k) = node_at w (_sha_file self k)).
  { apply node_at_same; [exact Cx | now apply Out]. }
  assert (Empty : os_path_isdir w (filename k) = true ->
                  forall r, lookup (files x) (resolve w (filename k) ++ r) = None).
  { intros D r. apply In1; [exact D | apply is_prefix_app | apply En]. }
  assert (Dx : os_path_isdir x (filename k) = false).
  { unfold os_path_isdir. rewrite (node_at_abs x _ Hf).
    rewrite (resolve_same_cwd w x _ Cx).
    destruct (os_path_isdir w (filename k)) eqn:D.
    - specialize (Empty eq_refl []). rewrite app_nil_r in Empty.
      now rewrite Empty.
    - rewrite (No eq_refl). unfold os_path_isdir in D.
      now rewrite (node_at_abs w _ Hf) in D. }
  split; [exact N|]. split; [exact Dx|]. split; [exact Empty|].
  unfold invalidate, bind. rewrite Rm. unfold query, os_path_exists.
  rewrite N. rewrite (node_at_nonempty w _ Hs).
  destruct (lookup (files w) (resolve w (_sha_file self k))) as [[d|]|] eqn:L;
    [| |reflexivity];
    unfold os_unlink;
    (destruct (String.eqb (_sha_file self k) "") eqn:Es;
     [now apply String.eqb_eq in Es|]);
    rewrite (resolve_same_cwd w x _ Cx), (Out _ PM), L; reflexivity.
Qed.

End Invalidate.

(** [invalidate] raises exactly when the marker path is a directory, with
    [OSError] and [EISDIR], after the entry directory is deleted.
    Otherwise it returns, the marker path is empty and the entry path is
    no directory; whatever was below an entry directory is gone; and a
    second [invalidate] returns and changes nothing. *)
Theorem invalidate_outcome
    (self : BuildCache) (k : CacheKey) (id : string) (w : world) :
  isabs (_root self) = true ->
  plain_name id = true ->
  filename k = os_path_join (_root self) id ->
  (os_path_isdir w (_sha_file self k) = true ->
   fst (invalidate self k w) = Raise (OSError EISDIR)) /\
  (os_path_isdir w (_sha_file self k) = false ->
   fst (invalidate self k w) = Ok tt /\
   node_at (snd (invalidate self k w)) (_sha_file self k) = None /\
   invalidate self k (snd (invalidate self k w))
   = (Ok tt, snd (invalidate self k w))) /\
  os_path_isdir (snd (invalidate self k w)) (filename k) = false /\
  (os_path_isdir w (filename k) = true ->
   forall r, lookup (files (snd (invalidate self k w)))
               (resolve w (filename k) ++ r) = None).
Proof.
  intros Hr Hid Hk.
  destruct (invalidate_effect self k id w Hr Hid Hk) as (N & Dx & Empty & I).
  pose proof (marker_outside_entry self k id w Hr Hid Hk) as Hout.
  pose proof (filename_abs self k id Hr Hid Hk) as Hf.
  pose proof (sha_file_nonempty self k) as Hs.
  set (x := snd (safe_rmtree (filename k) w)) in *.
  assert (Cx : getcwd x = getcwd w).
  { unfold x. destruct (safe_rmtree (filename k) w) as [r x0] eqn:Rm.
    now destruct (safe_rmtree_effect _ _ _ _ Rm) as (_ & C & _). }
  assert (EM : resolve w (filename k) <> resolve w (_sha_file self k)).
  { intros X. rewrite <- X in Hout. unfold comparable in Hout.
    now rewrite is_prefix_refl in Hout. }
  assert (Mn : resolve w (_sha_file self k) <> []).
  { rewrite (resolve_marker self k id w Hr Hid Hk).
    intros X. now apply app_eq_nil in X as [_ X]. }
  assert (PM : forall r, resolve w (filename k) ++ r
                         <> resolve w (_sha_file self k)).
  { intros r X. rewrite <- X in Hout. now rewrite comparable_under in Hout. }
  (* the world after the marker is removed *)
  set (y := set_files x (fs_remove (resolve w (_sha_file self k)) (files x))) in *.
  assert (Ny : node_at y (_sha_file self k) = None).
  { rewrite (node_at_nonempty y _ Hs).
    change (resolve y (_sha_file self k)) with (resolve x (_sha_file self k)).
    rewrite (resolve_same_cwd w x _ Cx). unfold y. cbn [files set_files].
    rewrite lookup_nonroot by exact Mn.
    now rewrite fs_find_remove, path_eqb_refl. }
  assert (Dy : os_path_isdir y (filename k) = false).
  { unfold os_path_isdir in *. rewrite (node_at_abs y _ Hf).
    rewrite (node_at_abs x _ Hf) in Dx.
    change (resolve y (filename k)) with (resolve x (filename k)).
    unfold y. cbn [files set_files]. rewrite lookup_remove_other; [exact Dx|].
    rewrite (resolve_same_cwd w x _ Cx). exact EM. }
  assert (Again : forall z, os_path_isdir z (filename k) = false ->
                            node_at z (_sha_file self k) = None ->
                            invalidate self k z = (Ok tt, z)).
  { intros z Dz Nz. unfold invalidate, bind, safe_rmtree. rewrite Dz.
    unfold query, os_path_exists. now rewrite Nz. }
  unfold os_path_isdir at 1 2. rewrite I.
  destruct (node_at w (_sha_file self k)) as [[d|]|] eqn:L; cbn [fst snd].
  - split; [discriminate|]. split.
    + intros _. split; [reflexivity|]. split; [exact Ny|]. now apply Again.
    + split; [exact Dy|]. intros D r. unfold y. cbn [files set_files].
      rewrite lookup_remove_other by apply PM. now apply Empty.
  - split; [reflexivity|]. split; [discriminate|]. split; [exact Dx|exact Empty].
  - split; [discriminate|]. split.
    + intros _. split; [reflexivity|]. rewrite N.
      split; [reflexivity|]. apply Again; [exact Dx | now rewrite N].
    + split; [exact Dx | exact Empty].
Qed.

Lemma invalidate_outcome_witness :
  (os_path_isdir ex_fresh (_sha_file ex_cache ex_key) = true ->
   fst (invalidate ex_cache ex_key ex_fresh) = Raise (OSError EISDIR)) /\
  (os_path_isdir ex_fresh (_sha_file ex_cache ex_key) = false ->
   fst (invalidate ex_cache ex_key ex_fresh) = Ok tt /\
   node_at (snd (invalidate ex_cache ex_key ex_fresh)) (_sha_file ex_cache ex_key)
   = None /\
   invalidate ex_cache ex_key (snd (invalidate ex_cache ex_key ex_fresh))
   = (Ok tt, snd (invalidate ex_cache ex_key ex_fresh))) /\
  os_path_isdir (snd (invalidate ex_cache ex_key ex_fresh)) (filename ex_key)
  = false /\
  (os_path_isdir ex_fresh (filename ex_key) = true ->
   forall r, lookup (files (snd (invalidate ex_cache ex_key ex_fresh)))
               (resolve ex_fresh (filename ex_key) ++ r) = None).
Proof.
  apply (invalidate_outcome ex_cache ex_key "libfoo" ex_fresh);
    vm_compute; reflexivity.
Defined.

(** In a cache whose root directory exists, [needs_update] answers [True]
    after [invalidate] has returned, whatever the entry and the marker
    were before. *)
Theorem invalidate_then_needs_update
    (self : BuildCache) (k : CacheKey) (id : string) (w w' : world) :
  isabs (_root self) = true ->
  plain_name id = true ->
  filename k = os_path_join (_root self) id ->
  (forall q, is_prefix q (resolve w (_root self)) = true ->
             lookup (files w) q = Some Dir) ->
  invalidate self k w = (Ok tt, w') ->
  needs_update self w' k = Ok true.
Proof.
  intros Hr Hid Hk Hroot I.
  destruct (invalidate_effect self k id w Hr Hid Hk) as (N & _ & _ & I').
  destruct (modifies_invalidate self k _ _ _ I) as [C Fr].
  pose proof (marker_outside_entry self k id w Hr Hid Hk) as Hout.
  pose proof (resolve_marker self k id w Hr Hid Hk) as HM.
  pose proof (resolve_entry self k id w Hid Hk) as HE.
  pose proof (sha_file_nonempty self k) as Hs.
  assert (Gone : node_at w' (_sha_file self k) = None).
  { rewrite I' in I. set (x := snd (safe_rmtree (filename k) w)) in *.
    assert (Cx : getcwd x = getcwd w).
    { unfold x. destruct (safe_rmtree (filename k) w) as [r x0] eqn:Rm.
      now destruct (safe_rmtree_effect _ _ _ _ Rm) as (_ & Cx & _). }
    destruct (node_at w (_sha_file self k)) as [[d|]|] eqn:L.
    - injection I as <-. rewrite (node_at_nonempty _ _ Hs).
      change (resolve (set_files x _) (_sha_file self k))
        with (resolve x (_sha_file self k)).
      rewrite (resolve_same_cwd w x _ Cx). cbn [files set_files].
      rewrite lookup_nonroot
        by (rewrite HM; intros X; now apply app_eq_nil in X as [_ X]).
      now rewrite fs_find_remove, path_eqb_refl.
    - discriminate.
    - injection I as <-. exact N. }
  unfold needs_update, _read_sha. rewrite open_read_by_node, Gone.
  destruct (String.eqb (_sha_file self k) "") eqn:Es;
    [now apply String.eqb_eq in Es|].
  unfold missing_errno. rewrite file_above_none; [reflexivity|].
  intros t Ht Hn data. cbn [app].
  rewrite (resolve_same_cwd w w' _ C), HM in Ht, Hn.
  assert (P : is_prefix t (resolve w (_root self)) = true)
    by exact (prefix_of_snoc t _ _ Ht Hn).
  rewrite Fr.
  - now rewrite (Hroot t P).
  - intros [X|X].
    + rewrite HE in X.
      pose proof (is_prefix_trans _ _ _ X P) as Y.
      apply is_prefix_iff in Y as [r Y].
      rewrite <- app_assoc in Y. rewrite <- (app_nil_r (resolve w (_root self))) in Y at 1.
      apply app_inv_head in Y. discriminate.
    + rewrite HM in X. congruence.
Qed.

Lemma invalidate_then_needs_update_witness :
  needs_update ex_cache (snd (invalidate ex_cache ex_key ex_fresh)) ex_key
  = Ok true.
Proof.
  apply (invalidate_then_needs_update ex_cache ex_key "libfoo" ex_fresh);
    try (vm_compute; reflexivity).
  intros q H. change (resolve ex_fresh (_root ex_cache)) with ["cache"; "0"] in H.
  destruct q as [|a [|b [|c q]]]; simpl in H.
  - reflexivity.
  - apply andb_true_iff in H as [H _]. apply String.eqb_eq in H. now subst.
  - apply andb_true_iff in H as [Ha H]. apply andb_true_iff in H as [Hb _].
    apply String.eqb_eq in Ha, Hb. now subst.
  - apply andb_true_iff in H as [_ H]. apply andb_true_iff in H as [_ H].
    discriminate.
Defined.

(* ===================================================================== *)
(** * What [update] and [invalidate] leave alone *)
(* ===================================================================== *)



(** [invalidate], whether it returns or raises, keeps the working
    directory and changes no path outside the entry directory and the
    marker. *)
Theorem invalidate_leaves_the_rest
    (self : BuildCache) (k : CacheKey) (w w' : world) (r : result unit) :
  invalidate self k w = (r, w') ->
  getcwd w' = getcwd w /\
  (forall q, is_prefix (resolve w (filename k)) q = false ->
             q <> resolve w (_sha_file self k) ->
             lookup (files w') q = lookup (files w) q).
Proof.
  intros I. destruct (modifies_invalidate self k _ _ _ I) as [C L].
  split; [exact C|]. intros q Hp Hm. apply L. intros [X|X]; congruence.
Qed.

Lemma invalidate_leaves_the_rest_witness :
  getcwd (snd (invalidate ex_cache ex_key ex_fresh)) = getcwd ex_fresh /\
  (forall q, is_prefix (resolve ex_fresh (filename ex_key)) q = false ->
             q <> resolve ex_fresh (_sha_file ex_cache ex_key) ->
             lookup (files (snd (invalidate ex_cache ex_key ex_fresh))) q
             = lookup (files ex_fresh) q).
Proof.
  apply (invalidate_leaves_the_rest ex_cache ex_key ex_fresh
           (snd (invalidate ex_cache ex_key ex_fresh)) (Ok tt)).
  vm_compute; reflexivity.
Defined.

(* ===================================================================== *)
(** * Where the marker lies *)
(* ===================================================================== *)

(** For a key of a plain id, the marker is [<id>.hash] joined to the root
    when the root is absolute, so it lies beside the entry directory.
    When the root is relative, [_sha_file] joins the root to a file name
    that already starts with it: the marker is
    [root/root/<id>.hash]. *)
Theorem marker_location
    (self : BuildCache) (k : CacheKey) (id : string) :
  plain_name id = true ->
  filename k = os_path_join (_root self) id ->
  (isabs (_root self) = true ->
   _sha_file self k = os_path_join (_root self) (id ++ ".hash")) /\
  (isabs (_root self) = false ->
   _sha_file self k
   = os_path_join (_root self) (os_path_join (_root self) (id ++ ".hash"))).
Proof.
  intros Hid Hk. split; intros Hr.
  - now apply sha_file_plain.
  - pose proof (plain_name_facts id Hid) as (Hne & _).
    pose proof (plain_name_isabs id Hid) as Ha.
    unfold _sha_file. rewrite Hk.
    rewrite <- (join_append (_root self) id ".hash" Hne Ha).
    apply join_append.
    + intros X. apply (f_equal String.length) in X.
      unfold os_path_join in X. rewrite Ha in X.
      destruct (String.eqb (_root self) "" || Str.ends_with_slash (_root self));
        rewrite !append_length in X; destruct id; simpl in X;
        try congruence; lia.
    + now rewrite isabs_join.
Qed.

Lemma marker_location_witness :
  (isabs (_root (mkBuildCache "cache/0")) = true ->
   _sha_file (mkBuildCache "cache/0")
     (_key_for (mkBuildCache "cache/0") "libfoo" hashlib_sha1 [])
   = os_path_join "cache/0" ("libfoo" ++ ".hash")) /\
  (isabs (_root (mkBuildCache "cache/0")) = false ->
   _sha_file (mkBuildCache "cache/0")
     (_key_for (mkBuildCache "cache/0") "libfoo" hashlib_sha1 [])
   = os_path_join "cache/0" (os_path_join "cache/0" ("libfoo" ++ ".hash"))).
Proof.
  apply (marker_location (mkBuildCache "cache/0")
           (_key_for (mkBuildCache "cache/0") "libfoo" hashlib_sha1 []) "libfoo");
    reflexivity.
Defined.

(* ===================================================================== *)
(** * What [update] stores *)
(* ===================================================================== *)



(** ** The listing of a directory *)
















(* ===================================================================== *)
(** * Handing out what was stored *)
(* ===================================================================== *)









(** When the entry path of the key is no directory, [use_cached_files]
    does not skip it: it calls [copy_fn] once, with the entry path itself
    as the source and its base name as the destination. *)
Theorem use_cached_files_without_entry
    (k : CacheKey) (copy_fn : string -> string -> M unit) (w : world) :
  os_path_isdir w (filename k) = false ->
  _walk_paths w [filename k] = [(os_path_basename (filename k), filename k)] /\
  use_cached_files k copy_fn w
  = bind (copy_fn (filename k) (os_path_basename (filename k)))
         (fun _ => ret tt) w.
Proof.
  intros Hd.
  assert (W : _walk_paths w [filename k]
              = [(os_path_basename (filename k), filename k)]).
  { unfold _walk_paths. change (sorted String.leb [filename k]) with [filename k].
    cbn [flat_map]. now rewrite Hd. }
  split; [exact W|]. unfold use_cached_files. rewrite W. reflexivity.
Qed.

Lemma use_cached_files_without_entry_witness :
  _walk_paths ex_world [filename ex_key]
  = [(os_path_basename (filename ex_key), filename ex_key)] /\
  use_cached_files ex_key (fun src dst => shutil_copy src dst) ex_world
  = bind (shutil_copy (filename ex_key) (os_path_basename (filename ex_key)))
         (fun _ => ret tt) ex_world.
Proof.
  apply (use_cached_files_without_entry ex_key
           (fun src dst => shutil_copy src dst) ex_world).
  vm_compute; reflexivity.
Defined.

(* ===================================================================== *)
(** * [pushd] *)
(* ===================================================================== *)

Lemma fold_norm_names (l : list string) (acc : path) :
  Forall (fun c => plain_name c = true) l ->
  fold_left norm_step l acc = (acc ++ l)%list.
Proof.
  revert acc; induction l as [|c l IH]; intros acc H; simpl.
  - now rewrite app_nil_r.
  - inversion H as [|? ? Hc Hl]; subst.
    rewrite (norm_step_plain acc c Hc), (IH _ Hl), <- app_assoc. reflexivity.
Qed.

(** The system's form of a path names that path again. *)
Lemma normalize_abs_path (p : path) :
  Forall (fun c => plain_name c = true) p ->
  normalize (Str.split_slash (abs_path p)) = p.
Proof.
  intros H. unfold abs_path, normalize.
  cbn [Str.split_slash]. rewrite Ascii.eqb_refl. cbn [fold_left].
  rewrite norm_step_empty.
  destruct p as [|c p]; [reflexivity|].
  rewrite split_join_slash; [now apply fold_norm_names | discriminate |].
  eapply Forall_impl; [|exact H]. intros a Ha.
  now destruct (plain_name_facts a Ha) as (_ & _ & _ & ?).
Qed.

Lemma isabs_abs_path (p : path) : isabs (abs_path p) = true.
Proof. unfold isabs, abs_path. simpl. now rewrite startswith_empty. Qed.

Lemma resolve_abs_path (x : world) (p : path) :
  Forall (fun c => plain_name c = true) p -> resolve x (abs_path p) = p.
Proof.
  intros H. rewrite resolve_abs by apply isabs_abs_path.
  now apply normalize_abs_path.
Qed.

Lemma resolve_empty (w : world) :
  resolve w "" = normalize (Str.split_slash (getcwd w)).
Proof.
  unfold resolve, normalize. now rewrite (fold_norm_join (getcwd w) "" [] eq_refl).
Qed.

Lemma canonical_resolve (w x : world) :
  canonical_cwd w ->
  getcwd w = abs_path (resolve w "") /\ getcwd w <> "" /\
  resolve x (getcwd w) = resolve w "".
Proof.
  intros Hc. unfold canonical_cwd in Hc. rewrite <- resolve_empty in Hc.
  split; [exact Hc|]. split; [rewrite Hc; discriminate|].
  rewrite Hc at 1. apply resolve_abs_path, resolve_plain.
Qed.

(** Inside the new working directory a relative path names what it named
    below that directory before. *)
Lemma resolve_after_chdir (w : world) (d s : string) (fs : FS) :
  isabs s = false ->
  resolve (World (abs_path (resolve w d)) fs) s = resolve w (os_path_join d s).
Proof.
  intros Hs. rewrite (resolve_rel _ s Hs), (resolve_join w d s Hs).
  f_equal. rewrite resolve_empty. cbn [getcwd].
  apply normalize_abs_path, resolve_plain.
Qed.

Lemma os_chdir_dir (w : world) (s : string) :
  os_path_isdir w s = true ->
  os_chdir s w = (Ok tt, World (abs_path (resolve w s)) (files w)).
Proof.
  unfold os_path_isdir, node_at, os_chdir.
  destruct (String.eqb s ""); [discriminate|].
  destruct (lookup (files w) (resolve w s)) as [[d|]|]; try discriminate.
  reflexivity.
Qed.

Lemma os_chdir_not_dir (w : world) (s : string) :
  os_path_isdir w s = false ->
  exists e, os_chdir s w = (Raise (OSError e), w).
Proof.
  unfold os_path_isdir, node_at, os_chdir.
  destruct (String.eqb s ""); [now eexists|].
  destruct (lookup (files w) (resolve w s)) as [[d|]|]; try discriminate;
    now eexists.
Qed.

(** [pushd] on a path that is no directory raises the [OSError] of
    [os.chdir]; the body does not run and nothing has changed, the working
    directory included. *)
Theorem pushd_needs_a_directory {A : Type}
    (directory : string) (body : string -> M A) (w : world) :
  os_path_isdir w directory = false ->
  exists e, pushd directory body w = (Raise (OSError e), w).
Proof.
  intros H. destruct (os_chdir_not_dir w directory H) as [e He].
  exists e. unfold pushd, bind, os_getcwd, query. now rewrite He.
Qed.

Lemma pushd_needs_a_directory_witness :
  exists e, pushd "out.bin" (fun _ => open_write "made" "x") ex_world
            = (Raise (OSError e), ex_world).
Proof.
  apply (pushd_needs_a_directory "out.bin" (fun _ => open_write "made" "x") ex_world).
  reflexivity.
Defined.

Lemma pushd_unfold {A : Type}
    (directory : string) (body : string -> M A) (w : world) :
  os_path_isdir w directory = true ->
  pushd directory body w
  = try_finally (body directory) (os_chdir (getcwd w))
      (World (abs_path (resolve w directory)) (files w)).
Proof.
  intros H. unfold pushd, bind, os_getcwd, query.
  now rewrite (os_chdir_dir w directory H).
Qed.

(** [pushd] runs the body in the directory and puts the working directory
    back. The body starts with the files as they were and with the
    directory as working directory, so that a relative path in the body
    names what it named below the directory. When the body is over,
    returning or raising, and the old working directory is still a
    directory, the outcome of [pushd] is the outcome of the body and the
    working directory is the old one, also when the body changed it. *)
Theorem pushd_restores_cwd {A : Type}
    (directory : string) (body : string -> M A) (w : world) :
  canonical_cwd w ->
  os_path_isdir w directory = true ->
  let inside := World (abs_path (resolve w directory)) (files w) in
  (forall s, isabs s = false ->
             resolve inside s = resolve w (os_path_join directory s)) /\
  (forall r w1,
      body directory inside = (r, w1) ->
      os_path_isdir w1 (getcwd w) = true ->
      pushd directory body w = (r, World (getcwd w) (files w1))).
Proof.
  intros Hc Hd inside. split.
  - intros s Hs. now apply resolve_after_chdir.
  - intros r w1 Hb Hback.
    rewrite (pushd_unfold directory body w Hd). fold inside.
    unfold try_finally. rewrite Hb.
    rewrite (os_chdir_dir w1 (getcwd w) Hback).
    destruct (canonical_resolve w w1 Hc) as (E & _ & R).
    now rewrite R, <- E.
Qed.

Lemma pushd_restores_cwd_witness :
  let inside := World (abs_path (resolve ex_world "/cache/0")) (files ex_world) in
  (forall s, isabs s = false ->
             resolve inside s = resolve ex_world (os_path_join "/cache/0" s)) /\
  (forall r w1,
      (fun _ : string => open_write "made" "x") "/cache/0" inside = (r, w1) ->
      os_path_isdir w1 (getcwd ex_world) = true ->
      pushd "/cache/0" (fun _ => open_write "made" "x") ex_world
      = (r, World (getcwd ex_world) (files w1))).
Proof.
  apply (pushd_restores_cwd "/cache/0" (fun _ => open_write "made" "x") ex_world);
    reflexivity.
Defined.

(** When the body has left the old working directory no directory, for
    instance by deleting it, [pushd] raises the [OSError] of the second
    [os.chdir], also when the body had returned; the working directory
    stays where the body left it. *)
Theorem pushd_cannot_return {A : Type}
    (directory : string) (body : string -> M A) (w w1 : world)
    (r : result A) :
  canonical_cwd w ->
  os_path_isdir w directory = true ->
  body directory (World (abs_path (resolve w directory)) (files w)) = (r, w1) ->
  os_path_isdir w1 (getcwd w) = false ->
  exists e, pushd directory body w = (Raise (OSError e), w1).
Proof.
  intros Hc Hd Hb Hback.
  rewrite (pushd_unfold directory body w Hd).
  unfold try_finally. rewrite Hb.
  destruct (os_chdir_not_dir w1 (getcwd w) Hback) as [e He].
  exists e. now rewrite He.
Qed.

Lemma pushd_cannot_return_witness :
  exists e,
    pushd "/cache/0" (fun _ => safe_rmtree "/home") ex_world
    = (Raise (OSError e),
       World "/cache/0" [ (["cache"], Dir); (["cache"; "0"], Dir) ]).
Proof.
  apply (pushd_cannot_return "/cache/0" (fun _ => safe_rmtree "/home") ex_world
           (World "/cache/0" [ (["cache"], Dir); (["cache"; "0"], Dir) ])
           (Ok tt)); reflexivity.
Defined.

(* ===================================================================== *)
(** * [environment_as] *)
(* ===================================================================== *)

Lemma dict_get_set {V} (k k' : string) (v : V) (d : dict V) :
  dict_get (dict_set k v d) k' = if String.eqb k k' then Some v else dict_get d k'.
Proof.
  induction d as [|[a b] d IH]; simpl.
  - reflexivity.
  - destruct (String.eqb a k) eqn:E; simpl.
    + apply String.eqb_eq in E. subst a.
      destruct (String.eqb k k'); reflexivity.
    + rewrite IH. destruct (String.eqb a k') eqn:E'; [|reflexivity].
      apply String.eqb_eq in E'. subst a.
      rewrite String.eqb_sym in E. now rewrite E.
Qed.

Lemma dict_get_del {V} (k k' : string) (d : dict V) :
  dict_get (dict_del k d) k' = if String.eqb k k' then None else dict_get d k'.
Proof.
  unfold dict_del. induction d as [|[a b] d IH]; simpl.
  - now destruct (String.eqb k k').
  - destruct (String.eqb a k) eqn:E; simpl.
    + rewrite IH. apply String.eqb_eq in E. subst a.
      now destruct (String.eqb k k').
    + rewrite IH. destruct (String.eqb a k') eqn:E'; [|reflexivity].
      apply String.eqb_eq in E'. subst a.
      rewrite String.eqb_sym in E. now rewrite E.
Qed.

Lemma dict_set_new {V} (k : string) (v : V) (d : dict V) :
  ~ In k (map fst d) -> dict_set k v d = (d ++ [(k, v)])%list.
Proof.
  induction d as [|[a b] d IH]; simpl; [reflexivity|]. intros H.
  destruct (String.eqb a k) eqn:E.
  - apply String.eqb_eq in E. tauto.
  - rewrite IH by tauto. reflexivity.
Qed.

(** One [setenv] with the name of a variable. *)
Lemma setenv_effect (key : string) (val : option string) (s : env) :
  env_name key = true ->
  exists s', setenv key val s = (Ok tt, s') /\
             environ s' = environ s /\
             forall k, getenv s' k = if String.eqb key k then val else getenv s k.
Proof.
  intros H. unfold setenv, os_putenv, os_unsetenv, getenv.
  destruct val as [v|]; rewrite H; eexists; (split; [reflexivity|]);
    (split; [reflexivity|]); intros k; cbn [process_env].
  - apply dict_get_set.
  - apply dict_get_del.
Qed.

(** A loop of [setenv] over items with distinct names. *)
Lemma set_each_effect (l : list (string * option string)) (s : env) :
  Forall (fun kv => env_name (fst kv) = true) l ->
  NoDup (map fst l) ->
  exists s',
    cfor_each l (fun kv => setenv (fst kv) (snd kv)) s = (Ok tt, s') /\
    environ s' = environ s /\
    (forall k v, In (k, v) l -> getenv s' k = v) /\
    (forall k, ~ In k (map fst l) -> getenv s' k = getenv s k).
Proof.
  revert s; induction l as [|[key val] l IH]; intros s Hn Hd.
  - exists s. simpl. repeat split; tauto.
  - inversion Hn as [|? ? Hk Hn']; subst. simpl in Hk, Hd.
    apply NoDup_cons_iff in Hd as [Hnew Hd].
    destruct (setenv_effect key val s Hk) as (s1 & E1 & V1 & G1).
    destruct (IH s1 Hn' Hd) as (s' & E' & V' & In' & Out').
    exists s'. cbn [cfor_each fst snd]. unfold cbind at 1. rewrite E1.
    split; [exact E'|]. split; [congruence|]. split.
    + intros k v [Heq | Hin].
      * injection Heq as <- <-. rewrite (Out' key Hnew), G1.
        now rewrite String.eqb_refl.
      * now apply In'.
    + intros k Hk'. simpl in Hk'. rewrite Out' by tauto. rewrite G1.
      destruct (String.eqb key k) eqn:E; [|reflexivity].
      apply String.eqb_eq in E. tauto.
Qed.

(** The first loop: it sets the variables and collects, for each name,
    the entry of [os.environ]. *)
Lemma save_and_set_effect (l : list (string * option string))
    (old : dict (option string)) (s : env) :
  Forall (fun kv => env_name (fst kv) = true) l ->
  NoDup (map fst l) ->
  (forall k, In k (map fst l) -> ~ In k (map fst old)) ->
  exists s',
    save_and_set l old s
    = (Ok (old ++ map (fun kv => (fst kv, dict_get (environ s) (fst kv))) l)%list,
       s') /\
    environ s' = environ s /\
    (forall k v, In (k, v) l -> getenv s' k = v) /\
    (forall k, ~ In k (map fst l) -> getenv s' k = getenv s k).
Proof.
  revert old s; induction l as [|[key val] l IH]; intros old s Hn Hd Hdis.
  - exists s. simpl. rewrite app_nil_r. repeat split; tauto.
  - inversion Hn as [|? ? Hk Hn']; subst. simpl in Hk, Hd.
    apply NoDup_cons_iff in Hd as [Hnew Hd].
    destruct (setenv_effect key val s Hk) as (s1 & E1 & V1 & G1).
    assert (Hold : ~ In key (map fst old)) by (apply Hdis; now left).
    destruct (IH (dict_set key (dict_get (environ s) key) old) s1 Hn' Hd)
      as (s' & E' & V' & In' & Out').
    { intros k Hin. rewrite (dict_set_new _ _ _ Hold), map_app, in_app_iff.
      simpl. intros [H | [H | []]].
      - apply (Hdis k); [now right | exact H].
      - subst k. tauto. }
    exists s'. cbn [save_and_set]. unfold cbind at 1, environ_get.
    unfold cbind at 1. rewrite E1, E'.
    rewrite (dict_set_new _ _ _ Hold), <- app_assoc, V1. cbn [map fst app].
    split; [reflexivity|]. split; [congruence|]. split.
    + intros k v [Heq | Hin].
      * injection Heq as <- <-. rewrite (Out' key Hnew), G1.
        now rewrite String.eqb_refl.
      * now apply In'.
    + intros k Hk'. simpl in Hk'. rewrite Out' by tauto. rewrite G1.
      destruct (String.eqb key k) eqn:E; [|reflexivity].
      apply String.eqb_eq in E. tauto.
Qed.

Section EnvironmentAs.

Variable items : dict (option string) -> list (string * option string).
Hypothesis items_perm : forall d, Permutation (items d) d.

Lemma items_names (d : dict (option string)) :
  Forall (fun k => env_name k = true) (dict_keys d) ->
  Forall (fun kv => env_name (fst kv) = true) (items d).
Proof.
  intros H. apply Forall_forall. intros kv Hin.
  rewrite Forall_forall in H. apply H. unfold dict_keys.
  apply in_map. eapply Permutation_in; [apply items_perm | exact Hin].
Qed.

Lemma items_nodup (d : dict (option string)) :
  NoDup (dict_keys d) -> NoDup (map fst (items d)).
Proof.
  intros H. eapply Permutation_NoDup; [|exact H]. unfold dict_keys.
  apply Permutation_map, Permutation_sym, items_perm.
Qed.

Lemma items_in (d : dict (option string)) (kv : string * option string) :
  In kv (items d) <-> In kv d.
Proof.
  split; apply Permutation_in; [|apply Permutation_sym]; apply items_perm.
Qed.

Lemma items_keys (d : dict (option string)) (k : string) :
  In k (map fst (items d)) <-> In k (dict_keys d).
Proof.
  unfold dict_keys.
  split; apply Permutation_in; apply Permutation_map;
    [|apply Permutation_sym]; apply items_perm.
Qed.

Lemma environment_as_effect {A : Type}
    (kwargs : dict (option string)) (body : Cmd env A) (s : env) :
  NoDup (dict_keys kwargs) ->
  Forall (fun k => env_name k = true) (dict_keys kwargs) ->
  exists inside,
    environ inside = environ s /\
    (forall k v, In (k, v) kwargs -> getenv inside k = v) /\
    (forall k, ~ In k (dict_keys kwargs) -> getenv inside k = getenv s k) /\
    forall r s1,
      body inside = (r, s1) ->
      exists s2,
        environment_as items kwargs body s = (r, s2) /\
        environ s2 = environ s1 /\
        (forall k, In k (dict_keys kwargs) ->
                   getenv s2 k = dict_get (environ s) k) /\
        (forall k, ~ In k (dict_keys kwargs) -> getenv s2 k = getenv s1 k).
Proof.
  intros Hd Hn.
  destruct (save_and_set_effect (items kwargs) [] s
              (items_names _ Hn) (items_nodup _ Hd))
    as (inside & E & V & Hin & Hout); [intros k _ []|].
  cbn [app] in E.
  set (old := map (fun kv : string * option string =>
                     (fst kv, dict_get (environ s) (fst kv))) (items kwargs)) in E.
  assert (Kold : dict_keys old = map fst (items kwargs)).
  { unfold old, dict_keys. rewrite map_map. reflexivity. }
  exists inside. split; [exact V|]. split.
  { intros k v H. apply Hin. now apply items_in. }
  split.
  { intros k H. apply Hout. now rewrite items_keys. }
  intros r s1 Hb.
  destruct (set_each_effect (items old) s1) as (s2 & E2 & V2 & In2 & Out2).
  { apply items_names. rewrite Kold. apply Forall_forall. intros k Hk.
    apply in_map_iff in Hk as [kv [<- Hk]].
    pose proof (items_names _ Hn) as F. rewrite Forall_forall in F.
    now apply F. }
  { apply items_nodup. rewrite Kold. now apply items_nodup. }
  exists s2. unfold environment_as, cbind. rewrite E.
  unfold try_finally. rewrite Hb, E2.
  split; [reflexivity|]. split; [exact V2|]. split.
  - intros k Hk. apply In2. apply items_in. unfold old.
    apply items_keys in Hk. apply in_map_iff in Hk as [kv [<- Hk]].
    apply in_map_iff. now exists kv.
  - intros k Hk. apply Out2. rewrite items_keys, Kold, items_keys. exact Hk.
Qed.

(** [environment_as] changes the environment of the process and never
    [os.environ]. The body starts with each named variable set to its
    value, or unset where the value is [None], the other variables and
    [os.environ] as they were. When the body is over, returning or
    raising, the outcome is the outcome of the body, and each named
    variable is what [os.environ] held for it on entry, unset where it held
    nothing: this is not what the variable was in the process before where
    the two differed, and not what the body made of it. The other
    variables and [os.environ] are as the body left them. *)
Theorem environment_as_sets_and_resets {A : Type}
    (kwargs : dict (option string)) (body : Cmd env A) (s : env) :
  NoDup (dict_keys kwargs) ->
  Forall (fun k => env_name k = true) (dict_keys kwargs) ->
  exists inside,
    environ inside = environ s /\
    (forall k v, In (k, v) kwargs -> getenv inside k = v) /\
    (forall k, ~ In k (dict_keys kwargs) -> getenv inside k = getenv s k) /\
    forall r s1,
      body inside = (r, s1) ->
      exists s2,
        environment_as items kwargs body s = (r, s2) /\
        environ s2 = environ s1 /\
        (forall k, In k (dict_keys kwargs) ->
                   getenv s2 k = dict_get (environ s) k) /\
        (forall k, ~ In k (dict_keys kwargs) -> getenv s2 k = getenv s1 k).
Proof. intros Hd Hn. now apply environment_as_effect. Qed.

(** Blocks for the same variable do not nest. After an inner block that
    names a variable, the rest of the outer block does not see the value
    the outer block had set for it, but the entry of [os.environ]. *)
Theorem nested_environment_as_forgets_outer
    (outer inner : dict (option string)) (k : string)
    (body : Cmd env unit) (s : env) :
  NoDup (dict_keys outer) ->
  Forall (fun k => env_name k = true) (dict_keys outer) ->
  NoDup (dict_keys inner) ->
  Forall (fun k => env_name k = true) (dict_keys inner) ->
  In k (dict_keys outer) -> In k (dict_keys inner) ->
  (forall x, fst (body x) = Ok tt /\ environ (snd (body x)) = environ x) ->
  fst (environment_as items outer
         (cbind (environment_as items inner body)
                (fun _ x => (Ok (getenv x k), x))) s)
  = Ok (dict_get (environ s) k).
Proof.
  intros Hd Hn Hd' Hn' Hk Hk' Hbody.
  destruct (environment_as_effect outer
              (cbind (environment_as items inner body)
                     (fun _ x => (Ok (getenv x k), x))) s Hd Hn)
    as (s_out & Eout & _ & _ & Run).
  destruct (environment_as_effect inner body s_out Hd' Hn')
    as (s_in & Ein & _ & _ & Run').
  destruct (body s_in) as [r s1] eqn:Hb.
  destruct (Hbody s_in) as [Hr He]. rewrite Hb in Hr, He. simpl in Hr, He.
  subst r.
  destruct (Run' (Ok tt) s1 eq_refl) as (s2 & E2 & _ & G2 & _).
  destruct (Run (Ok (getenv s2 k)) s2) as (s3 & E3 & _).
  { unfold cbind. now rewrite E2. }
  rewrite E3. cbn [fst]. now rewrite (G2 k Hk'), Eout.
Qed.

End EnvironmentAs.

Lemma environment_as_sets_and_resets_witness :
  exists inside,
    environ inside = environ (Env [("HOME", "/root")] [("HOME", "/root"); ("CC", "gcc")]) /\
    (forall k v, In (k, v) [("CC", Some "clang"); ("HOME", None)] ->
                 getenv inside k = v) /\
    (forall k, ~ In k (dict_keys [("CC", Some "clang"); ("HOME", None)]) ->
               getenv inside k
               = getenv (Env [("HOME", "/root")] [("HOME", "/root"); ("CC", "gcc")]) k) /\
    forall r s1,
      os_putenv "CC" "tcc" inside = (r, s1) ->
      exists s2,
        environment_as (fun d => d) [("CC", Some "clang"); ("HOME", None)]
          (os_putenv "CC" "tcc")
          (Env [("HOME", "/root")] [("HOME", "/root"); ("CC", "gcc")])
        = (r, s2) /\
        environ s2 = environ s1 /\
        (forall k, In k (dict_keys [("CC", Some "clang"); ("HOME", None)]) ->
                   getenv s2 k = dict_get [("HOME", "/root")] k) /\
        (forall k, ~ In k (dict_keys [("CC", Some "clang"); ("HOME", None)]) ->
                   getenv s2 k = getenv s1 k).
Proof.
  apply (environment_as_sets_and_resets (fun d => d)
           (fun d => Permutation_refl d)
           [("CC", Some "clang"); ("HOME", None)] (os_putenv "CC" "tcc")
           (Env [("HOME", "/root")] [("HOME", "/root"); ("CC", "gcc")])).
  - repeat constructor; simpl; intuition discriminate.
  - repeat constructor.
Defined.

Lemma nested_environment_as_forgets_outer_witness :
  fst (environment_as (fun d => d) [("CC", Some "clang")]
         (cbind (environment_as (fun d => d) [("CC", Some "tcc")] (cret tt))
                (fun _ x => (Ok (getenv x "CC"), x)))
         (Env [] [("CC", "gcc")]))
  = Ok (dict_get (environ (Env [] [("CC", "gcc")])) "CC").
Proof.
  apply (nested_environment_as_forgets_outer (fun d => d)
           (fun d => Permutation_refl d)
           [("CC", Some "clang")] [("CC", Some "tcc")] "CC" (cret tt)
           (Env [] [("CC", "gcc")])).
  - repeat constructor; simpl; intuition.
  - repeat constructor.
  - repeat constructor; simpl; intuition.
  - repeat constructor.
  - now left.
  - now left.
  - intros x. split; reflexivity.
Defined.

(* ===================================================================== *)
(** * [mutable_sys] *)
(* ===================================================================== *)

Lemma saved_attributes_distinct : NoDup SAVED_ATTRIBUTES.
Proof.
  assert (H : nodup string_dec SAVED_ATTRIBUTES = SAVED_ATTRIBUTES)
    by (vm_compute; reflexivity).
  rewrite <- H. apply NoDup_nodup.
Qed.

Lemma dict_get_app_new {V} (d : dict V) (k : string) (v : V) :
  ~ In k (map fst d) -> dict_get (d ++ [(k, v)]) k = Some v.
Proof.
  induction d as [|[a b] d IH]; simpl; intros H.
  - now rewrite String.eqb_refl.
  - destruct (String.eqb a k) eqn:E; [apply String.eqb_eq in E; tauto|].
    apply IH. tauto.
Qed.

(** The backup holds, for each key that is an attribute of [sys], the
    place the attribute is bound to. *)
Lemma sys_backup_spec {Obj} (s : interp Obj) (keys : list string) (d : dict nat) :
  NoDup keys ->
  (forall k, In k keys -> ~ In k (map fst d)) ->
  NoDup (map fst d) ->
  NoDup (map fst (sys_backup s keys d)) /\
  forall k p, In (k, p) (sys_backup s keys d)
              <-> In (k, p) d \/ (In k keys /\ dict_get (sys_attrs s) k = Some p).
Proof.
  revert d; induction keys as [|key keys IH]; intros d Hk Hdis Hd; simpl.
  - split; [exact Hd|]. intros k p. tauto.
  - apply NoDup_cons_iff in Hk as [Hnew Hk].
    assert (Hkey : ~ In key (map fst d)) by (apply Hdis; now left).
    destruct (dict_get (sys_attrs s) key) as [q|] eqn:G.
    + rewrite (dict_set_new _ _ _ Hkey).
      destruct (IH (d ++ [(key, q)])%list Hk) as [N I].
      * intros k Hin. rewrite map_app, in_app_iff. simpl.
        intros [H | [H | []]]; [apply (Hdis k); [now right | exact H] | subst; tauto].
      * rewrite map_app. simpl. apply NoDup_app. repeat split.
        -- exact Hd.
        -- repeat constructor. simpl. tauto.
        -- intros a Ha [<- | []]. tauto.
      * split; [exact N|]. intros k p. rewrite I, in_app_iff. simpl.
        split.
        -- intros [[H | [H | []]] | [H1 H2]]; [tauto | | tauto].
           injection H as <- <-. right. tauto.
        -- intros [H | [[<- | H1] H2]]; [tauto | | tauto].
           left. right. left. congruence.
    + destruct (IH d Hk) as [N I]; [intros k Hin; apply Hdis; now right | exact Hd |].
      split; [exact N|]. intros k p. rewrite I. split.
      * intros [H | [H1 H2]]; tauto.
      * intros [H | [[<- | H1] H2]]; [tauto | congruence | tauto].
Qed.

Lemma setattr_each_effect {Obj} (l : list (string * nat)) (x : interp Obj) :
  NoDup (map fst l) ->
  exists x',
    cfor_each l (fun kv => setattr (fst kv) (snd kv)) x = (Ok tt, x') /\
    heap x' = heap x /\
    (forall k p, In (k, p) l -> dict_get (sys_attrs x') k = Some p) /\
    (forall k, ~ In k (map fst l) ->
               dict_get (sys_attrs x') k = dict_get (sys_attrs x) k).
Proof.
  revert x; induction l as [|[key p] l IH]; intros x Hd.
  - exists x. simpl. repeat split; tauto.
  - simpl in Hd. apply NoDup_cons_iff in Hd as [Hnew Hd].
    destruct (IH (Interp (dict_set key p (sys_attrs x)) (heap x)) Hd)
      as (x' & E & Hh & Hin & Hout).
    exists x'. cbn [cfor_each fst snd]. unfold cbind at 1, setattr at 1.
    split; [exact E|]. split; [exact Hh|]. split.
    + intros k q [Heq | H].
      * injection Heq as <- <-. rewrite (Hout key Hnew). cbn [sys_attrs].
        now rewrite dict_get_set, String.eqb_refl.
      * now apply Hin.
    + intros k Hk. simpl in Hk. rewrite Hout by tauto. cbn [sys_attrs].
      rewrite dict_get_set. destruct (String.eqb key k) eqn:E'; [|reflexivity].
      apply String.eqb_eq in E'. tauto.
Qed.

Lemma delattr_each_effect {Obj} (l : list string) (x : interp Obj) :
  exists x',
    cfor_each l (fun attribute y =>
                   if hasattr y attribute then delattr attribute y
                   else (Ok tt, y)) x = (Ok tt, x') /\
    heap x' = heap x /\
    (forall k, In k l -> dict_get (sys_attrs x') k = None) /\
    (forall k, ~ In k l ->
               dict_get (sys_attrs x') k = dict_get (sys_attrs x) k).
Proof.
  revert x; induction l as [|key l IH]; intros x.
  - exists x. simpl. repeat split; tauto.
  - set (x1 := if hasattr x key then Interp (dict_del key (sys_attrs x)) (heap x)
               else x).
    assert (H1 : heap x1 = heap x /\ dict_get (sys_attrs x1) key = None /\
                 forall k, k <> key ->
                           dict_get (sys_attrs x1) k = dict_get (sys_attrs x) k).
    { unfold x1, hasattr.
      destruct (dict_get (sys_attrs x) key) eqn:G; cbn [heap sys_attrs].
      - split; [reflexivity|]. split.
        + now rewrite dict_get_del, String.eqb_refl.
        + intros k Hk. rewrite dict_get_del.
          destruct (String.eqb key k) eqn:E; [|reflexivity].
          apply String.eqb_eq in E. congruence.
      - repeat split. exact G. }
    destruct H1 as (Hh1 & Hk1 & Ho1).
    destruct (IH x1) as (x' & E & Hh & Hin & Hout).
    exists x'. cbn [cfor_each]. unfold cbind at 1.
    assert (S1 : (if hasattr x key then delattr key x else (Ok tt, x))
                 = (Ok tt, x1)).
    { unfold x1, delattr. now destruct (hasattr x key). }
    rewrite S1. split; [exact E|]. split; [congruence|]. split.
    + intros k [<- | H].
      * destruct (in_dec string_dec key l) as [Hi | Hi];
          [now apply Hin | now rewrite Hout].
      * now apply Hin.
    + intros k Hk. simpl in Hk. rewrite Hout by tauto. apply Ho1.
      intros ->. tauto.
Qed.

Section MutableSys.

Variable Obj : Type.
Variable items : dict nat -> list (string * nat).
Variable elements : list string -> list string.
Hypothesis items_perm : forall d, Permutation (items d) d.
Hypothesis elements_perm : forall l, Permutation (elements l) l.

Lemma mutable_sys_effect {A : Type}
    (body : Cmd (interp Obj) A) (s s1 : interp Obj) (r : result A) :
  body s = (r, s1) ->
  exists s2,
    mutable_sys items elements body s = (r, s2) /\
    heap s2 = heap s1 /\
    (forall a, In a SAVED_ATTRIBUTES ->
               dict_get (sys_attrs s2) a = dict_get (sys_attrs s) a) /\
    (forall a, ~ In a SAVED_ATTRIBUTES ->
               dict_get (sys_attrs s2) a = dict_get (sys_attrs s1) a).
Proof.
  intros Hb.
  destruct (sys_backup_spec s SAVED_ATTRIBUTES [] saved_attributes_distinct)
    as [Nb Ib]; [intros k _ [] | constructor |].
  set (backup := sys_backup s SAVED_ATTRIBUTES []) in *.
  set (delete := filter (fun key => negb (hasattr s key)) SAVED_ATTRIBUTES).
  assert (Nitems : NoDup (map fst (items backup))).
  { eapply Permutation_NoDup; [|exact Nb].
    apply Permutation_map, Permutation_sym, items_perm. }
  destruct (setattr_each_effect (items backup) s1 Nitems)
    as (x & Ex & Hx & Inx & Outx).
  destruct (delattr_each_effect (elements delete) x)
    as (s2 & E2 & H2 & In2 & Out2).
  exists s2. unfold mutable_sys. fold backup. fold delete.
  unfold try_finally. rewrite Hb. unfold cbind. rewrite Ex, E2.
  split; [reflexivity|]. split; [congruence|].
  assert (Del : forall a, In a (elements delete)
                          <-> In a SAVED_ATTRIBUTES /\ dict_get (sys_attrs s) a = None).
  { intros a. split.
    - intros H. apply (Permutation_in _ (elements_perm delete)) in H.
      unfold delete in H. apply filter_In in H as [K1 K2]. split; [exact K1|].
      unfold hasattr in K2. now destruct (dict_get (sys_attrs s) a).
    - intros [K1 K2].
      apply (Permutation_in _ (Permutation_sym (elements_perm delete))).
      apply filter_In. split; [exact K1|]. unfold hasattr. now rewrite K2. }
  assert (Bak : forall a p, In (a, p) (items backup)
                            <-> In a SAVED_ATTRIBUTES /\ dict_get (sys_attrs s) a = Some p).
  { intros a p. split.
    - intros H. apply (Permutation_in _ (items_perm backup)) in H.
      apply Ib in H. destruct H as [[] | H]. exact H.
    - intros H.
      apply (Permutation_in _ (Permutation_sym (items_perm backup))).
      apply Ib. now right. }
  split.
  - intros a Ha. destruct (dict_get (sys_attrs s) a) as [p|] eqn:G.
    + rewrite Out2 by (rewrite Del; intros [_ H]; congruence).
      apply Inx. now apply Bak.
    + apply In2. now apply Del.
  - intros a Ha. rewrite Out2 by (rewrite Del; tauto).
    apply Outx. intros H. apply in_map_iff in H as [[a' p] [Heq H]].
    simpl in Heq. subst a'. apply Bak in H. tauto.
Qed.

(** [mutable_sys] puts the saved attributes of [sys] back: when the body
    is over, returning or raising, the outcome is the outcome of the body
    and each saved attribute is bound to the object it was bound to on
    entry, and is missing if it was missing. It restores bindings, not
    contents: the objects are as the body left them, so a change the body
    made in place to an object that is still bound shows after the block,
    and an attribute that is not among the nine saved ones is as the body
    left it. *)
Theorem mutable_sys_restores_bindings {A : Type}
    (body : Cmd (interp Obj) A) (s s1 : interp Obj) (r : result A) :
  body s = (r, s1) ->
  exists s2,
    mutable_sys items elements body s = (r, s2) /\
    heap s2 = heap s1 /\
    (forall a, In a SAVED_ATTRIBUTES ->
               dict_get (sys_attrs s2) a = dict_get (sys_attrs s) a) /\
    (forall a, ~ In a SAVED_ATTRIBUTES ->
               dict_get (sys_attrs s2) a = dict_get (sys_attrs s1) a) /\
    (forall a, In a SAVED_ATTRIBUTES -> sys_value s2 a
               = match dict_get (sys_attrs s) a with
                 | Some p => heap_get (heap s1) p
                 | None => None
                 end).
Proof.
  intros Hb.
  destruct (mutable_sys_effect body s s1 r Hb) as (s2 & E & H & In' & Out').
  exists s2. repeat split; try assumption.
  intros a Ha. unfold sys_value. now rewrite (In' a Ha), H.
Qed.

End MutableSys.

Lemma mutable_sys_restores_bindings_witness :
  exists s2,
    mutable_sys (fun d => d) (fun l => l)
      (fun x => (Ok tt, Interp [("path", 1); ("exitfunc", 2)]
                          [(0, ["/usr/lib"; "/tmp/eggs"]); (1, ["/opt"]); (2, [])]))
      (Interp [("path", 0)] [(0, ["/usr/lib"])])
    = (Ok tt, s2) /\
    heap s2 = [(0, ["/usr/lib"; "/tmp/eggs"]); (1, ["/opt"]); (2, [])] /\
    (forall a, In a SAVED_ATTRIBUTES ->
               dict_get (sys_attrs s2) a = dict_get [("path", 0)] a) /\
    (forall a, ~ In a SAVED_ATTRIBUTES ->
               dict_get (sys_attrs s2) a
               = dict_get [("path", 1); ("exitfunc", 2)] a) /\
    (forall a, In a SAVED_ATTRIBUTES -> sys_value s2 a
               = match dict_get [("path", 0)] a with
                 | Some p =>
                     heap_get [(0, ["/usr/lib"; "/tmp/eggs"]); (1, ["/opt"]); (2, [])] p
                 | None => None
                 end).
Proof.
  apply (mutable_sys_restores_bindings (list string) (fun d => d) (fun l => l)
           (fun d => Permutation_refl d) (fun l => Permutation_refl l)
           (fun x => (Ok tt, Interp [("path", 1); ("exitfunc", 2)]
                               [(0, ["/usr/lib"; "/tmp/eggs"]); (1, ["/opt"]); (2, [])]))
           (Interp [("path", 0)] [(0, ["/usr/lib"])])
           (Interp [("path", 1); ("exitfunc", 2)]
              [(0, ["/usr/lib"; "/tmp/eggs"]); (1, ["/opt"]); (2, [])])
           (Ok tt)).
  reflexivity.
Defined.

(* ===================================================================== *)
(** * [temporary_dir] *)
(* ===================================================================== *)

Lemma tmp_name_plain (n : string) :
  Str.has_slash n = false -> plain_name ("tmp" ++ n)%string = true.
Proof. intros H. unfold plain_name. simpl. now rewrite H. Qed.

Lemma join_tmp_nonempty (dir n : string) :
  String.eqb (os_path_join dir ("tmp" ++ n)%string) "" = false.
Proof.
  apply String.eqb_neq. unfold os_path_join.
  destruct (isabs ("tmp" ++ n)%string);
    [|destruct (String.eqb dir "" || Str.ends_with_slash dir)];
    intros H; apply (f_equal String.length) in H;
    rewrite ?append_length in H; simpl in H; lia.
Qed.

Lemma missing_errno_not_eexist (fs : FS) (p : path) :
  missing_errno fs p = ENOTDIR \/ missing_errno fs p = ENOENT.
Proof. unfold missing_errno. destruct (file_above fs [] p); auto. Qed.

(** [os.mkdir] of a name in a directory. *)
Lemma os_mkdir_in (dir n : string) (w : world) :
  Str.has_slash n = false ->
  os_mkdir (os_path_join dir ("tmp" ++ n)%string) w
  = match lookup (files w) (resolve w dir ++ [("tmp" ++ n)%string]) with
    | Some _ => (Raise (OSError EEXIST), w)
    | None =>
        match lookup (files w) (resolve w dir) with
        | Some Dir =>
            (Ok tt, set_files w (fs_set (resolve w dir ++ [("tmp" ++ n)%string]) Dir (files w)))
        | _ => (Raise (OSError (missing_errno (files w)
                                  (resolve w dir ++ [("tmp" ++ n)%string]))), w)
        end
    end.
Proof.
  intros H. unfold os_mkdir. rewrite join_tmp_nonempty.
  rewrite (resolve_join_plain w dir _ (tmp_name_plain n H)).
  now rewrite removelast_last.
Qed.

(** The names that exist are passed over and the first free one is
    taken. *)
Lemma mkdtemp_from_takes (dir : string) (taken : list string) (name : string)
    (rest : list string) (w : world) :
  Forall (fun n => Str.has_slash n = false) (taken ++ name :: rest) ->
  lookup (files w) (resolve w dir) = Some Dir ->
  (forall n, In n taken ->
             lookup (files w) (resolve w dir ++ [("tmp" ++ n)%string]) <> None) ->
  lookup (files w) (resolve w dir ++ [("tmp" ++ name)%string]) = None ->
  mkdtemp_from dir (taken ++ name :: rest) w
  = (Ok (os_path_join dir ("tmp" ++ name)%string),
     set_files w (fs_set (resolve w dir ++ [("tmp" ++ name)%string]) Dir (files w))).
Proof.
  intros Hn Hd Ht Hf. induction taken as [|t taken IH].
  - cbn [app mkdtemp_from]. inversion Hn as [|? ? Hs _]; subst.
    now rewrite (os_mkdir_in dir name w Hs), Hf, Hd.
  - cbn [app mkdtemp_from]. inversion Hn as [|? ? Hs Hn']; subst.
    rewrite (os_mkdir_in dir t w Hs).
    destruct (lookup (files w) (resolve w dir ++ [("tmp" ++ t)%string])) eqn:E.
    + apply IH; [exact Hn' | intros n Hin; apply Ht; now right].
    + exfalso. apply (Ht t); [now left | exact E].
Qed.

(** Without the directory above, no name is accepted and nothing
    changes. *)
Lemma mkdtemp_from_no_dir (dir : string) (names : list string) (w : world) :
  Forall (fun n => Str.has_slash n = false) names ->
  lookup (files w) (resolve w dir) <> Some Dir ->
  exists e, mkdtemp_from dir names w = (Raise e, w).
Proof.
  intros Hn Hd. induction names as [|n names IH].
  - now eexists.
  - inversion Hn as [|? ? Hs Hn']; subst. cbn [mkdtemp_from].
    rewrite (os_mkdir_in dir n w Hs).
    destruct (lookup (files w) (resolve w dir ++ [("tmp" ++ n)%string])).
    + now apply IH.
    + destruct (lookup (files w) (resolve w dir)) as [[d|]|] eqn:E;
        [| congruence |];
        destruct (missing_errno_not_eexist (files w) (resolve w dir ++ [("tmp" ++ n)%string]))
          as [-> | ->]; now eexists.
Qed.

Lemma mkdtemp_from_used_up (dir : string) (names : list string) (w : world) :
  Forall (fun n => Str.has_slash n = false) names ->
  (forall n, In n names ->
             lookup (files w) (resolve w dir ++ [("tmp" ++ n)%string]) <> None) ->
  mkdtemp_from dir names w = (Raise (IOError EEXIST), w).
Proof.
  intros Hn Ht. induction names as [|n names IH]; [reflexivity|].
  inversion Hn as [|? ? Hs Hn']; subst. cbn [mkdtemp_from].
  rewrite (os_mkdir_in dir n w Hs).
  destruct (lookup (files w) (resolve w dir ++ [("tmp" ++ n)%string])) eqn:E.
  - apply IH; [exact Hn' | intros m Hin; apply Ht; now right].
  - exfalso. apply (Ht n); [now left | exact E].
Qed.

Lemma rmtree_ignore_errors_effect (f : string) (w : world) :
  exists x,
    shutil_rmtree_ignore_errors f w = (Ok tt, x) /\ getcwd x = getcwd w /\
    (forall q, is_prefix (resolve w f) q = false ->
               lookup (files x) q = lookup (files w) q) /\
    (os_path_isdir w f = true ->
     forall q, is_prefix (resolve w f) q = true -> q <> [] ->
               lookup (files x) q = None) /\
    (os_path_isdir w f = false -> x = w).
Proof.
  unfold shutil_rmtree_ignore_errors. destruct (os_path_isdir w f);
    eexists; (split; [reflexivity|]); (split; [reflexivity|]);
    (split; [|split]); try discriminate; try tauto.
  - intros q Hq. simpl. now apply lookup_remove_tree_other.
  - intros _ q Hq Hne. simpl. rewrite lookup_nonroot by assumption.
    now rewrite fs_find_remove_tree, Hq.
Qed.

(** [temporary_dir] makes a new directory, hands it to the body and, with
    [cleanup], removes it. The directory is named after the first of the
    candidate names that does not exist in the root directory; the body
    starts with it as a directory that was not there before and with every
    other path as it was. When the body is over, returning or raising, the
    outcome is the outcome of the body. Without [cleanup] the files are as
    the body left them. With [cleanup], what the path names when the body
    is over is removed with all below it if it is a directory, and nothing
    is removed if it is not; every other path is as the body left it. The
    path names the directory that was made if the root directory is
    absolute or the body has kept the working directory. *)
Theorem temporary_dir_lifecycle {A : Type}
    (tempdir : string) (taken : list string) (name : string)
    (rest : list string) (root_dir : option string)
    (body : string -> M A) (w : world) :
  let dir := match root_dir with Some d => d | None => tempdir end in
  let path := os_path_join dir ("tmp" ++ name) in
  let made := (resolve w dir ++ [("tmp" ++ name)%string])%list in
  let inside := set_files w (fs_set made Dir (files w)) in
  Forall (fun n => Str.has_slash n = false) (taken ++ name :: rest) ->
  lookup (files w) (resolve w dir) = Some Dir ->
  (forall n, In n taken ->
             lookup (files w) (resolve w dir ++ [("tmp" ++ n)%string]) <> None) ->
  lookup (files w) made = None ->
  resolve w path = made /\
  lookup (files inside) made = Some Dir /\
  (forall q, q <> made -> lookup (files inside) q = lookup (files w) q) /\
  forall r w1,
    body path inside = (r, w1) ->
    temporary_dir tempdir (taken ++ name :: rest) root_dir false body w
    = (r, w1) /\
    (isabs dir = true \/ getcwd w1 = getcwd w -> resolve w1 path = made) /\
    (os_path_isdir w1 path = false ->
     temporary_dir tempdir (taken ++ name :: rest) root_dir true body w
     = (r, w1)) /\
    (os_path_isdir w1 path = true ->
     exists w2,
       temporary_dir tempdir (taken ++ name :: rest) root_dir true body w
       = (r, w2) /\
       getcwd w2 = getcwd w1 /\
       (forall q, is_prefix (resolve w1 path) q = true -> q <> [] ->
                  lookup (files w2) q = None) /\
       (forall q, is_prefix (resolve w1 path) q = false ->
                  lookup (files w2) q = lookup (files w1) q)).
Proof.
  intros dir path made inside Hn Hd Ht Hf.
  assert (Hs : Str.has_slash name = false).
  { rewrite Forall_forall in Hn. apply Hn, in_app_iff. right. now left. }
  assert (Hp : resolve w path = made)
    by apply (resolve_join_plain w dir _ (tmp_name_plain name Hs)).
  assert (Hm : made <> []) by (unfold made; now destruct (resolve w dir)).
  split; [exact Hp|]. split; [now apply lookup_set_same|].
  split; [intros q Hq; now apply lookup_set_other|].
  intros r w1 Hb.
  assert (Run : forall cleanup,
             temporary_dir tempdir (taken ++ name :: rest) root_dir cleanup body w
             = try_finally (body path)
                 (if cleanup then shutil_rmtree_ignore_errors path else ret tt)
                 inside).
  { intros cleanup. unfold temporary_dir, bind, mkdtemp. fold dir.
    now rewrite (mkdtemp_from_takes dir taken name rest w Hn Hd Ht Hf). }
  split; [|split; [|split]].
  - rewrite Run. unfold try_finally. now rewrite Hb.
  - intros [Ha | Hc].
    + unfold path. rewrite resolve_abs.
      * rewrite <- Hp. unfold path. rewrite resolve_abs; [reflexivity|].
        rewrite isabs_join; [exact Ha|].
        apply plain_name_isabs, tmp_name_plain, Hs.
      * rewrite isabs_join; [exact Ha|].
        apply plain_name_isabs, tmp_name_plain, Hs.
    + rewrite <- Hp. now apply resolve_same_cwd.
  - intros Hno. rewrite Run. unfold try_finally. rewrite Hb.
    destruct (rmtree_ignore_errors_effect path w1) as (x & E & _ & _ & _ & Same).
    rewrite E. now rewrite (Same Hno).
  - intros Hyes. rewrite Run. unfold try_finally. rewrite Hb.
    destruct (rmtree_ignore_errors_effect path w1) as (x & E & C & Out & In' & _).
    rewrite E. exists x. split; [reflexivity|]. split; [exact C|].
    split; [now apply In' | exact Out].
Qed.

Lemma temporary_dir_lifecycle_witness :
  let dir := match Some "/home" with Some d => d | None => "/tmp" end in
  let path := os_path_join dir ("tmp" ++ "b2") in
  let made := (resolve ex_world dir ++ [("tmp" ++ "b2")%string])%list in
  let inside := set_files ex_world (fs_set made Dir (files ex_world)) in
  resolve ex_world path = made /\
  lookup (files inside) made = Some Dir /\
  (forall q, q <> made -> lookup (files inside) q = lookup (files ex_world) q) /\
  forall r w1,
    (fun p => open_write (os_path_join p "log") "x") path inside = (r, w1) ->
    temporary_dir "/tmp" ([] ++ "b2" :: ["c3"]) (Some "/home") false
      (fun p => open_write (os_path_join p "log") "x") ex_world
    = (r, w1) /\
    (isabs dir = true \/ getcwd w1 = getcwd ex_world -> resolve w1 path = made) /\
    (os_path_isdir w1 path = false ->
     temporary_dir "/tmp" ([] ++ "b2" :: ["c3"]) (Some "/home") true
       (fun p => open_write (os_path_join p "log") "x") ex_world
     = (r, w1)) /\
    (os_path_isdir w1 path = true ->
     exists w2,
       temporary_dir "/tmp" ([] ++ "b2" :: ["c3"]) (Some "/home") true
         (fun p => open_write (os_path_join p "log") "x") ex_world
       = (r, w2) /\
       getcwd w2 = getcwd w1 /\
       (forall q, is_prefix (resolve w1 path) q = true -> q <> [] ->
                  lookup (files w2) q = None) /\
       (forall q, is_prefix (resolve w1 path) q = false ->
                  lookup (files w2) q = lookup (files w1) q)).
Proof.
  apply (temporary_dir_lifecycle "/tmp" [] "b2" ["c3"] (Some "/home")
           (fun p => open_write (os_path_join p "log") "x") ex_world).
  - repeat constructor.
  - reflexivity.
  - intros n [].
  - reflexivity.
Defined.

(** When the root directory is no directory, [temporary_dir] raises from
    [mkdtemp]: the body does not run and nothing has changed. *)
Theorem temporary_dir_needs_root {A : Type}
    (tempdir : string) (names : list string) (root_dir : option string)
    (cleanup : bool) (body : string -> M A) (w : world) :
  Forall (fun n => Str.has_slash n = false) names ->
  lookup (files w)
    (resolve w (match root_dir with Some d => d | None => tempdir end))
  <> Some Dir ->
  exists e, temporary_dir tempdir names root_dir cleanup body w = (Raise e, w).
Proof.
  intros Hn Hd.
  destruct (mkdtemp_from_no_dir _ names w Hn Hd) as [e He].
  exists e. unfold temporary_dir, bind, mkdtemp. now rewrite He.
Qed.

Lemma temporary_dir_needs_root_witness :
  exists e,
    temporary_dir "/tmp" ["b2"; "c3"] None true
      (fun p => open_write (os_path_join p "log") "x") ex_world
    = (Raise e, ex_world).
Proof.
  apply (temporary_dir_needs_root "/tmp" ["b2"; "c3"] None true
           (fun p => open_write (os_path_join p "log") "x") ex_world).
  - repeat constructor.
  - intro H. vm_compute in H. discriminate H.
Defined.

(** When every candidate name exists in the root directory,
    [temporary_dir] raises [IOError] with [EEXIST]: the body does not run
    and nothing has changed. *)
Theorem temporary_dir_names_used_up {A : Type}
    (tempdir : string) (names : list string) (root_dir : option string)
    (cleanup : bool) (body : string -> M A) (w : world) :
  Forall (fun n => Str.has_slash n = false) names ->
  (forall n, In n names ->
     lookup (files w)
       (resolve w (match root_dir with Some d => d | None => tempdir end)
        ++ [("tmp" ++ n)%string]) <> None) ->
  temporary_dir tempdir names root_dir cleanup body w
  = (Raise (IOError EEXIST), w).
Proof.
  intros Hn Ht. unfold temporary_dir, bind, mkdtemp.
  now rewrite (mkdtemp_from_used_up _ names w Hn Ht).
Qed.

Lemma temporary_dir_names_used_up_witness :
  temporary_dir "/tmp" ["b2"] (Some "/") false
    (fun p => open_write (os_path_join p "log") "x")
    (World "/" [ (["tmpb2"], File "x") ])
  = (Raise (IOError EEXIST), World "/" [ (["tmpb2"], File "x") ]).
Proof.
  apply (temporary_dir_names_used_up "/tmp" ["b2"] (Some "/") false
           (fun p => open_write (os_path_join p "log") "x")
           (World "/" [ (["tmpb2"], File "x") ])).
  - repeat constructor.
  - intros n [<- | []]. intro H. vm_compute in H. discriminate H.
Defined.

(* ===================================================================== *)
(** * [update]: artifacts with the same base name *)
(* ===================================================================== *)






(* ===================================================================== *)
(** * [update]: a directory as artifact *)
(* ===================================================================== *)




